(** * akaze_inliers: matching two images with A-KAZE features and saving
      the RANSAC inliers

    A shallow embedding of [src/akaze_inliers.cpp] (the driver [main],
    [save_inliers] and [parse_input_options]) together with the properties
    its specification states about it.

    Conventions of the embedding.
    - A [float]/[double] is a finite binary fraction and is represented by the
      rational number it denotes ([Q]).  The one arithmetic operation the file
      performs on keypoint coordinates, [x + .5] in double precision, is exact
      for every [float] whose result fits an [int], so no rounding is modelled.
    - An [int] is a [Z] in the range [INT_MIN .. INT_MAX]; loop counters that
      can never leave that range ([i < argc], [i < ptpairs.size()]) are [nat].
    - [std::vector] and [argv] are lists, [v[i]] is the partial lookup
      [v !! i]; an access outside the container has no defined result and
      ends the run with [Undefined i].
    - [std::cerr], the help screen and the calls into the libraries are
      recorded, in order, in the [log] of the [World]; the file system is a
      finite map from paths to contents. *)

From Stdlib Require Import ZArith QArith Lqa Qround String Ascii DecimalString DecimalZ.
From stdpp Require Import base option list strings gmap.

Local Open Scope string_scope.
Local Open Scope list_scope.
Local Open Scope Z_scope.

(** ** Results of a run *)

Inductive outcome (A : Type) : Type :=
| Returns (a : A)            (* the function returned [a] *)
| Undefined (idx : nat)      (* element [idx] was used, but the container ends before it *)
| OutOfFuel.                 (* the unrolling bound of a loop was too small *)
Arguments Returns {A} a.
Arguments Undefined {A} idx.
Arguments OutOfFuel {A}.

Definition outcome_bind {A B} (f : A → outcome B) (m : outcome A) : outcome B :=
  match m with
  | Returns a => f a
  | Undefined i => Undefined i
  | OutOfFuel => OutOfFuel
  end.

#[export] Instance outcome_mbind : MBind outcome := @outcome_bind.
#[export] Instance outcome_mret : MRet outcome := @Returns.

(** [v[i]] on a [std::vector] or on [argv]. *)
Definition at_index {A} (v : list A) (i : nat) : outcome A :=
  match v !! i with
  | Some a => Returns a
  | None => Undefined i
  end.

(** ** Numbers and text *)

Definition INT_MIN : Z := - 2 ^ 31.
Definition INT_MAX : Z := 2 ^ 31 - 1.

(** Truncation toward zero of a rational: the value of [(int) d] whenever it
    is representable. *)
Definition Qtrunc (q : Q) : Z := Z.quot (Qnum q) (Z.pos (Qden q)).

Definition representable (q : Q) : Prop := INT_MIN ≤ Qtrunc q ≤ INT_MAX.

(** [cv::Point2f] *)
Record Point2f : Type := { pt_x : Q; pt_y : Q }.

(** The characters the output needs besides those of plain literals. *)
Definition dquote : ascii := Eval cbv in ascii_of_nat 34.
Definition newline : ascii := Eval cbv in ascii_of_nat 10.
Definition endl : string := String newline EmptyString.

(** A C string literal whose text is [s] between escaped quotes: [\"s\"]. *)
Definition quoted (s : string) : string :=
  String dquote (s +:+ String dquote EmptyString).

(** [stream << n] for an [int]: decimal digits, a leading minus sign for
    negative values. *)
Definition print_int (n : Z) : string := NilZero.string_of_int (Z.to_int n).

(** ** The world the program runs in *)

(** The two OpenCV brute-force matchers the driver creates:
    ["BruteForce"] (L2 norm) and ["BruteForce-Hamming"]. *)
Inductive Matcher : Type := BruteForce | BruteForceHamming.

Inductive Event : Type :=
| Cerr (text : string)                         (* text sent to std::cerr *)
| InputOptionsHelp                                     (* show_input_options_help(1) *)
| KnnMatch (m : Matcher) (k : nat)             (* m->knnMatch(desc1, desc2, dmatches, k) *)
| Matches2PointsNndr (nndr : Q)                (* matches2points_nndr(.., .., .., .., nndr) *)
| ComputeInliersRansac (error : Q) (flag : bool). (* compute_inliers_ransac(.., .., error, flag) *)

Record World : Type := {
  files : gmap string string;     (* contents of the files that exist *)
  can_open : string → bool;       (* whether an ofstream on the path opens *)
  log : list Event
}.

Definition emit (e : Event) (w : World) : World :=
  {| files := files w; can_open := can_open w; log := log w ++ [e] |}.

Definition write_file (path content : string) (w : World) : World :=
  {| files := <[path := content]> (files w); can_open := can_open w; log := log w |}.

(** ** What the driver takes from its libraries

    [AKAZEOptions] is declared in [lib/AKAZEConfig.h]; the record lists the
    members this file assigns.  Members set from [atof] hold the number that
    [atof] returned, members set from [atoi] an integer; the two enumerations
    ([DIFFUSIVITY_TYPE], [DESCRIPTOR_TYPE]) are integers. *)
Record AKAZEOptions : Type := {
  soffset : Q;
  omax : Q;
  dthreshold : Q;
  sderivatives : Q;
  nsublevels : Z;
  diffusivity : Z;
  descriptor : Z;
  descriptor_channels : Z;
  descriptor_size : Z;
  show_results : bool;
  verbosity : bool;
  img_width : Z;
  img_height : Z
}.

(** Everything the file uses but does not define: the conversion of a
    [double] to [int], the C library, the constants and the default
    constructor of [lib/AKAZEConfig.h], OpenCV and the A-KAZE library.
    A function with an output parameter takes the value the parameter has at
    the call and returns its new value. *)
Class Library : Type := {
  int_of_double : Q → Z;                         (* (int) d *)
  atoi : string → Z;
  atof : string → Q;
  MLDB_UPRIGHT : Z;
  MLDB : Z;
  default_options : AKAZEOptions;                (* AKAZEOptions() *)
  Image : Type;                                  (* cv::Mat holding an image *)
  KeyPoint : Type;                               (* cv::KeyPoint *)
  Mat : Type;                                    (* cv::Mat holding descriptors *)
  DMatch : Type;                                 (* cv::DMatch *)
  imread : World → string → option Image;        (* None: img.data == NULL *)
  cols : Image → Z;
  rows : Image → Z;
  (* AKAZE(options); Create_Nonlinear_Scale_Space; Feature_Detection; Compute_Descriptors *)
  akaze_features : AKAZEOptions → Image → list KeyPoint * Mat;
  knnMatch : Matcher → Mat → Mat → nat → list (list DMatch);
  matches2points_nndr :
    list KeyPoint → list KeyPoint → list (list DMatch) → list Point2f → Q → list Point2f;
  compute_inliers_ransac : list Point2f → list Point2f → Q → bool → list Point2f
}.

(** The C++ standard fixes [(int) d] only when the truncated value is an
    [int]; a library is conforming when it agrees there. *)
Definition conforming_cast `{Library} : Prop :=
  ∀ q : Q, representable q → int_of_double q = Qtrunc q.

(** ** Image matching options (lines 33-34) *)

(** [2.50f]: exactly representable. *)
Definition MIN_H_ERROR : Q := 5 # 2.
(** [0.80f]: the single-precision number nearest to 0.8, 13421773 / 2^24. *)
Definition DRATIO : Q := 13421773 # 16777216.

(** ** save_inliers (lines 131-166) *)

Section save_inliers.
Context `{Library}.

(** [(int)(c+.5)] *)
Definition round_coord (c : Q) : Z := int_of_double (c + (1 # 2))%Q.

(** The text of one pass of the loop body after the separator. *)
Definition record_text (x1 y1 x2 y2 : Z) : string :=
  "{"
  +:+ quoted "pattern_point" +:+ ": {" +:+ quoted "x" +:+ ": " +:+ print_int x1
  +:+ ", " +:+ quoted "y" +:+ ": " +:+ print_int y1 +:+ "}, "
  +:+ quoted "image_point" +:+ ": {" +:+ quoted "x" +:+ ": " +:+ print_int x2
  +:+ ", " +:+ quoted "y" +:+ ": " +:+ print_int y2 +:+ "}"
  +:+ "}"
  +:+ endl.

(** The [for] loop of lines 144-158; [ipfile] is the text written so far.
    Each pass needs one unit of [fuel]. *)
Fixpoint save_inliers_loop (fuel : nat) (ptpairs : list Point2f) (i : nat)
    (ipfile : string) : outcome string :=
  match fuel with
  | O => OutOfFuel
  | S fuel' =>
    if decide (i < length ptpairs)%nat then
      p ← at_index ptpairs i;
      let x1 := round_coord (pt_x p) in
      p ← at_index ptpairs i;
      let y1 := round_coord (pt_y p) in
      q ← at_index ptpairs (i + 1);
      let x2 := round_coord (pt_x q) in
      q ← at_index ptpairs (i + 1);
      let y2 := round_coord (pt_y q) in
      let ipfile := if decide (0 < i)%nat then ipfile +:+ ", " else ipfile in
      let ipfile := ipfile +:+ record_text x1 y1 x2 y2 in
      save_inliers_loop fuel' ptpairs (i + 2) ipfile
    else Returns ipfile
  end.

Definition open_error (outFile : string) : string :=
  "Couldn't open file '" +:+ outFile +:+ "'!" +:+ endl.

Definition save_inliers (outFile : string) (ptpairs : list Point2f) (w : World)
    : outcome (Z * World) :=
  if can_open w outFile then
    let ipfile := "{" +:+ quoted "points" +:+ ": [" +:+ endl in
    ipfile ← save_inliers_loop (S (length ptpairs)) ptpairs 0 ipfile;
    let ipfile := ipfile +:+ "]}" +:+ endl in
    Returns (0, write_file outFile ipfile w)
  else
    Returns (-1, emit (Cerr (open_error outFile)) w).

End save_inliers.

(** ** Assignments to the members of [AKAZEOptions] *)

Definition set_soffset (v : Q) (o : AKAZEOptions) : AKAZEOptions :=
  {| soffset := v; omax := omax o; dthreshold := dthreshold o;
     sderivatives := sderivatives o; nsublevels := nsublevels o;
     diffusivity := diffusivity o; descriptor := descriptor o;
     descriptor_channels := descriptor_channels o; descriptor_size := descriptor_size o;
     show_results := show_results o; verbosity := verbosity o; img_width := img_width o;
     img_height := img_height o |}.

Definition set_omax (v : Q) (o : AKAZEOptions) : AKAZEOptions :=
  {| soffset := soffset o; omax := v; dthreshold := dthreshold o;
     sderivatives := sderivatives o; nsublevels := nsublevels o;
     diffusivity := diffusivity o; descriptor := descriptor o;
     descriptor_channels := descriptor_channels o; descriptor_size := descriptor_size o;
     show_results := show_results o; verbosity := verbosity o; img_width := img_width o;
     img_height := img_height o |}.

Definition set_dthreshold (v : Q) (o : AKAZEOptions) : AKAZEOptions :=
  {| soffset := soffset o; omax := omax o; dthreshold := v; sderivatives := sderivatives o;
     nsublevels := nsublevels o; diffusivity := diffusivity o; descriptor := descriptor o;
     descriptor_channels := descriptor_channels o; descriptor_size := descriptor_size o;
     show_results := show_results o; verbosity := verbosity o; img_width := img_width o;
     img_height := img_height o |}.

Definition set_sderivatives (v : Q) (o : AKAZEOptions) : AKAZEOptions :=
  {| soffset := soffset o; omax := omax o; dthreshold := dthreshold o; sderivatives := v;
     nsublevels := nsublevels o; diffusivity := diffusivity o; descriptor := descriptor o;
     descriptor_channels := descriptor_channels o; descriptor_size := descriptor_size o;
     show_results := show_results o; verbosity := verbosity o; img_width := img_width o;
     img_height := img_height o |}.

Definition set_nsublevels (v : Z) (o : AKAZEOptions) : AKAZEOptions :=
  {| soffset := soffset o; omax := omax o; dthreshold := dthreshold o;
     sderivatives := sderivatives o; nsublevels := v; diffusivity := diffusivity o;
     descriptor := descriptor o; descriptor_channels := descriptor_channels o;
     descriptor_size := descriptor_size o; show_results := show_results o;
     verbosity := verbosity o; img_width := img_width o; img_height := img_height o |}.

Definition set_diffusivity (v : Z) (o : AKAZEOptions) : AKAZEOptions :=
  {| soffset := soffset o; omax := omax o; dthreshold := dthreshold o;
     sderivatives := sderivatives o; nsublevels := nsublevels o; diffusivity := v;
     descriptor := descriptor o; descriptor_channels := descriptor_channels o;
     descriptor_size := descriptor_size o; show_results := show_results o;
     verbosity := verbosity o; img_width := img_width o; img_height := img_height o |}.

Definition set_descriptor (v : Z) (o : AKAZEOptions) : AKAZEOptions :=
  {| soffset := soffset o; omax := omax o; dthreshold := dthreshold o;
     sderivatives := sderivatives o; nsublevels := nsublevels o;
     diffusivity := diffusivity o; descriptor := v;
     descriptor_channels := descriptor_channels o; descriptor_size := descriptor_size o;
     show_results := show_results o; verbosity := verbosity o; img_width := img_width o;
     img_height := img_height o |}.

Definition set_descriptor_channels (v : Z) (o : AKAZEOptions) : AKAZEOptions :=
  {| soffset := soffset o; omax := omax o; dthreshold := dthreshold o;
     sderivatives := sderivatives o; nsublevels := nsublevels o;
     diffusivity := diffusivity o; descriptor := descriptor o; descriptor_channels := v;
     descriptor_size := descriptor_size o; show_results := show_results o;
     verbosity := verbosity o; img_width := img_width o; img_height := img_height o |}.

Definition set_descriptor_size (v : Z) (o : AKAZEOptions) : AKAZEOptions :=
  {| soffset := soffset o; omax := omax o; dthreshold := dthreshold o;
     sderivatives := sderivatives o; nsublevels := nsublevels o;
     diffusivity := diffusivity o; descriptor := descriptor o;
     descriptor_channels := descriptor_channels o; descriptor_size := v;
     show_results := show_results o; verbosity := verbosity o; img_width := img_width o;
     img_height := img_height o |}.

Definition set_show_results (v : bool) (o : AKAZEOptions) : AKAZEOptions :=
  {| soffset := soffset o; omax := omax o; dthreshold := dthreshold o;
     sderivatives := sderivatives o; nsublevels := nsublevels o;
     diffusivity := diffusivity o; descriptor := descriptor o;
     descriptor_channels := descriptor_channels o; descriptor_size := descriptor_size o;
     show_results := v; verbosity := verbosity o; img_width := img_width o;
     img_height := img_height o |}.

Definition set_verbosity (v : bool) (o : AKAZEOptions) : AKAZEOptions :=
  {| soffset := soffset o; omax := omax o; dthreshold := dthreshold o;
     sderivatives := sderivatives o; nsublevels := nsublevels o;
     diffusivity := diffusivity o; descriptor := descriptor o;
     descriptor_channels := descriptor_channels o; descriptor_size := descriptor_size o;
     show_results := show_results o; verbosity := v; img_width := img_width o;
     img_height := img_height o |}.

Definition set_img_width (v : Z) (o : AKAZEOptions) : AKAZEOptions :=
  {| soffset := soffset o; omax := omax o; dthreshold := dthreshold o;
     sderivatives := sderivatives o; nsublevels := nsublevels o;
     diffusivity := diffusivity o; descriptor := descriptor o;
     descriptor_channels := descriptor_channels o; descriptor_size := descriptor_size o;
     show_results := show_results o; verbosity := verbosity o; img_width := v;
     img_height := img_height o |}.

Definition set_img_height (v : Z) (o : AKAZEOptions) : AKAZEOptions :=
  {| soffset := soffset o; omax := omax o; dthreshold := dthreshold o;
     sderivatives := sderivatives o; nsublevels := nsublevels o;
     diffusivity := diffusivity o; descriptor := descriptor o;
     descriptor_channels := descriptor_channels o; descriptor_size := descriptor_size o;
     show_results := show_results o; verbosity := verbosity o; img_width := img_width o;
     img_height := v |}.

(** ** parse_input_options (lines 169-305) *)

(** The four reference parameters of [parse_input_options]. *)
Record Args : Type := {
  options : AKAZEOptions;
  img_path1 : string;
  img_path2 : string;
  inliers_path : string
}.

Definition set_options (v : AKAZEOptions) (a : Args) : Args :=
  {| options := v; img_path1 := img_path1 a; img_path2 := img_path2 a;
     inliers_path := inliers_path a |}.
Definition set_img_path1 (v : string) (a : Args) : Args :=
  {| options := options a; img_path1 := v; img_path2 := img_path2 a;
     inliers_path := inliers_path a |}.
Definition set_img_path2 (v : string) (a : Args) : Args :=
  {| options := options a; img_path1 := img_path1 a; img_path2 := v;
     inliers_path := inliers_path a |}.
Definition set_inliers_path (v : string) (a : Args) : Args :=
  {| options := options a; img_path1 := img_path1 a; img_path2 := img_path2 a;
     inliers_path := v |}.

(** [options.f = ...] through the reference. *)
Definition update_options (f : AKAZEOptions → AKAZEOptions) (a : Args) : Args :=
  set_options (f (options a)) a.

(** How one pass of the option loop ends: at the closing brace, with the
    value [i] has there, or in a [return]. *)
Inductive pass : Type :=
| Continue (i : nat) (a : Args) (w : World)
| Return (ret : Z) (a : Args) (w : World).

Definition input_error : string := "Error introducing input options!!" +:+ endl.

Section parse_input_options.
Context `{Library}.

(** The block every option with a value repeats:
    [i = i + 1; if (i >= argc) { cerr << ...; return -1; } else { ... argv[i] ... }] *)
Definition option_value (argv : list string) (i : nat) (a : Args) (w : World)
    (assign : string → Args → Args) : outcome pass :=
  let i := (i + 1)%nat in
  if decide (length argv ≤ i)%nat then
    Returns (Return (-1) a (emit (Cerr input_error) w))
  else
    v ← at_index argv i;
    Returns (Continue i (assign v a) w).

(** The body of the [for] loop of lines 192-297. *)
Definition option_pass (argv : list string) (i : nat) (a : Args) (w : World)
    : outcome pass :=
  arg ← at_index argv i;
  if String.eqb arg "--soffset" then
    option_value argv i a w (λ v, update_options (set_soffset (atof v)))
  else if String.eqb arg "--omax" then
    option_value argv i a w (λ v, update_options (set_omax (atof v)))
  else if String.eqb arg "--dthreshold" then
    option_value argv i a w (λ v, update_options (set_dthreshold (atof v)))
  else if String.eqb arg "--sderivatives" then
    option_value argv i a w (λ v, update_options (set_sderivatives (atof v)))
  else if String.eqb arg "--nsublevels" then
    option_value argv i a w (λ v, update_options (set_nsublevels (atoi v)))
  else if String.eqb arg "--diffusivity" then
    option_value argv i a w (λ v, update_options (set_diffusivity (atoi v)))
  else if String.eqb arg "--descriptor" then
    option_value argv i a w (λ v,
      let d := atoi v in
      update_options (set_descriptor (if decide (d < 0 ∨ d > MLDB) then MLDB else d)))
  else if String.eqb arg "--descriptor_channels" then
    option_value argv i a w (λ v,
      let c := atoi v in
      update_options (set_descriptor_channels (if decide (c ≤ 0 ∨ c > 3) then 3 else c)))
  else if String.eqb arg "--descriptor_size" then
    option_value argv i a w (λ v,
      let n := atoi v in
      update_options (set_descriptor_size (if decide (n < 0) then 0 else n)))
  else if String.eqb arg "--show_results" then
    option_value argv i a w (λ v, update_options (set_show_results (negb (atoi v =? 0))))
  else if String.eqb arg "--verbose" then
    Returns (Continue i (update_options (set_verbosity true) a) w)
  else if String.eqb arg "--output" then
    option_value argv i a w (λ v, set_inliers_path v)
  else if String.prefix "--" arg then
    Returns (Continue i a (emit (Cerr ("Unknown command " +:+ arg +:+ endl)) w))
  else
    Returns (Continue i a w).

(** [for (int i = 3; i < argc; i++)], then the [return 0] of line 304. *)
Fixpoint option_loop (fuel : nat) (argv : list string) (i : nat) (a : Args) (w : World)
    : outcome (Z * Args * World) :=
  match fuel with
  | O => OutOfFuel
  | S fuel' =>
    if decide (i < length argv)%nat then
      p ← option_pass argv i a w;
      match p with
      | Return ret a w => Returns (ret, a, w)
      | Continue i a w => option_loop fuel' argv (i + 1) a w
      end
    else Returns (0, a, w)
  end.

Definition parse_input_options (a : Args) (argv : list string) (w : World)
    : outcome (Z * Args * World) :=
  let argc := length argv in
  if decide (argc = 1%nat) then
    Returns (-1, a, emit InputOptionsHelp w)
  else if decide (2 ≤ argc)%nat then
    let a := set_inliers_path "./inliers.json" a in
    let a := set_options default_options a in
    arg1 ← at_index argv 1;
    if String.eqb arg1 "--help" then
      Returns (-1, a, emit InputOptionsHelp w)
    else
      let a := set_img_path1 arg1 a in
      arg2 ← at_index argv 2;
      let a := set_img_path2 arg2 a in
      option_loop (length argv) argv 3 a w
  else
    Returns (-1, a, emit InputOptionsHelp (emit (Cerr input_error) w)).

End parse_input_options.

(** ** main (lines 52-128) *)

Section main.
Context `{Library}.

(** The matcher chosen at lines 116-119. *)
Definition select_matcher (options : AKAZEOptions) : Matcher :=
  if decide (descriptor options < MLDB_UPRIGHT) then BruteForce else BruteForceHamming.

(** The variables [main] declares before it parses the command line. *)
Definition initial_args : Args :=
  {| options := default_options; img_path1 := EmptyString;
     img_path2 := EmptyString; inliers_path := EmptyString |}.

Definition load_error (n : string) (path : string) : string :=
  "Error loading image " +:+ n +:+ ": " +:+ path +:+ endl.

(** The images for visualisation (lines 88-91) are never used and are left
    out.  Falling off the end of [main] returns 0. *)
Definition main (argv : list string) (w : World) : outcome (Z * World) :=
  '(ret, a, w) ← parse_input_options initial_args argv w;
  if decide (ret ≠ 0) then Returns (-1, w)
  else
    match imread w (img_path1 a) with
    | None => Returns (-1, emit (Cerr (load_error "1" (img_path1 a))) w)
    | Some img1 =>
      match imread w (img_path2 a) with
      | None => Returns (-1, emit (Cerr (load_error "2" (img_path2 a))) w)
      | Some img2 =>
        let options := options a in
        let options := set_img_width (cols img1) options in
        let options := set_img_height (rows img1) options in
        let evolution1 := options in
        let options := set_img_width (cols img2) options in
        let options := set_img_height (rows img2) options in
        let evolution2 := options in
        let '(kpts1, desc1) := akaze_features evolution1 img1 in
        let '(kpts2, desc2) := akaze_features evolution2 img2 in
        let matcher := select_matcher options in
        let dmatches := knnMatch matcher desc1 desc2 2 in
        let w := emit (KnnMatch matcher 2) w in
        let matches := matches2points_nndr kpts1 kpts2 dmatches [] DRATIO in
        let w := emit (Matches2PointsNndr DRATIO) w in
        let inliers := compute_inliers_ransac matches [] MIN_H_ERROR false in
        let w := emit (ComputeInliersRansac MIN_H_ERROR false) w in
        '(_, w) ← save_inliers (inliers_path a) inliers w;
        Returns (0, w)
      end
    end.

End main.

(** ** Reading the inlier file back

    A reader for the part of JSON the file uses: objects, arrays, strings
    without escapes and integers, with blanks and line ends between tokens.
    It is the reference against which the text written by [save_inliers] is
    judged. *)

Inductive token : Type :=
| TLBrace | TRBrace | TLBracket | TRBracket | TColon | TComma
| TString (text : string)
| TNumber (text : string).

Inductive lex_mode : Type :=
| Idle
| InString (text : string)
| InNumber (text : string).

Definition is_digit (c : ascii) : bool :=
  ((48 <=? nat_of_ascii c) && (nat_of_ascii c <=? 57))%nat.

Definition is_blank (c : ascii) : bool :=
  bool_decide (c = " "%char) || bool_decide (c = newline)
  || bool_decide (nat_of_ascii c = 9%nat) || bool_decide (nat_of_ascii c = 13%nat).

Definition snoc (s : string) (c : ascii) : string := s +:+ String c EmptyString.

(** A character met between tokens. *)
Definition lex_idle (c : ascii) : option (list token * lex_mode) :=
  if is_blank c then Some ([], Idle)
  else if bool_decide (c = "{"%char) then Some ([TLBrace], Idle)
  else if bool_decide (c = "}"%char) then Some ([TRBrace], Idle)
  else if bool_decide (c = "["%char) then Some ([TLBracket], Idle)
  else if bool_decide (c = "]"%char) then Some ([TRBracket], Idle)
  else if bool_decide (c = ":"%char) then Some ([TColon], Idle)
  else if bool_decide (c = ","%char) then Some ([TComma], Idle)
  else if bool_decide (c = dquote) then Some ([], InString EmptyString)
  else if bool_decide (c = "-"%char) || is_digit c then
    Some ([], InNumber (String c EmptyString))
  else None.

Definition lex_step (m : lex_mode) (c : ascii) : option (list token * lex_mode) :=
  match m with
  | Idle => lex_idle c
  | InString text =>
    if bool_decide (c = dquote) then Some ([TString text], Idle)
    else if bool_decide (c = "\"%char) then None
    else Some ([], InString (snoc text c))
  | InNumber text =>
    if is_digit c then Some ([], InNumber (snoc text c))
    else '(ts, m) ← lex_idle c; Some (TNumber text :: ts, m)
  end.

Fixpoint lex_run (m : lex_mode) (s : string) : option (list token * lex_mode) :=
  match s with
  | EmptyString => Some ([], m)
  | String c s' =>
    '(ts, m) ← lex_step m c;
    '(ts', m) ← lex_run m s';
    Some (ts ++ ts', m)
  end.

Definition lex (s : string) : option (list token) :=
  '(ts, m) ← lex_run Idle s;
  match m with
  | Idle => Some ts
  | InNumber text => Some (ts ++ [TNumber text])
  | InString _ => None
  end.

#[warnings="-register-all"]
Inductive json : Type :=
| JNumber (n : Z)
| JString (s : string)
| JArray (elements : list json)
| JObject (members : list (string * json)).

Definition number_value (text : string) : option Z :=
  Z.of_int <$> NilZero.int_of_string text.

Fixpoint parse_value (fuel : nat) (ts : list token) : option (json * list token) :=
  match fuel with
  | O => None
  | S fuel =>
    match ts with
    | TNumber text :: ts => n ← number_value text; Some (JNumber n, ts)
    | TString s :: ts => Some (JString s, ts)
    | TLBracket :: TRBracket :: ts => Some (JArray [], ts)
    | TLBracket :: ts => '(vs, ts) ← parse_elements fuel ts; Some (JArray vs, ts)
    | TLBrace :: TRBrace :: ts => Some (JObject [], ts)
    | TLBrace :: ts => '(ms, ts) ← parse_members fuel ts; Some (JObject ms, ts)
    | _ => None
    end
  end
with parse_elements (fuel : nat) (ts : list token) : option (list json * list token) :=
  match fuel with
  | O => None
  | S fuel =>
    '(v, ts) ← parse_value fuel ts;
    match ts with
    | TComma :: ts => '(vs, ts) ← parse_elements fuel ts; Some (v :: vs, ts)
    | TRBracket :: ts => Some ([v], ts)
    | _ => None
    end
  end
with parse_members (fuel : nat) (ts : list token)
    : option (list (string * json) * list token) :=
  match fuel with
  | O => None
  | S fuel =>
    match ts with
    | TString k :: TColon :: ts =>
      '(v, ts) ← parse_value fuel ts;
      match ts with
      | TComma :: ts => '(ms, ts) ← parse_members fuel ts; Some ((k, v) :: ms, ts)
      | TRBrace :: ts => Some ([(k, v)], ts)
      | _ => None
      end
    | _ => None
    end
  end.

(** A whole document: one value and nothing after it. *)
Definition parse_json (s : string) : option json :=
  ts ← lex s;
  '(v, rest) ← parse_value (S (length ts)) ts;
  match rest with [] => Some v | _ => None end.

Fixpoint member (k : string) (ms : list (string * json)) : option json :=
  match ms with
  | [] => None
  | (k', v) :: ms => if String.eqb k k' then Some v else member k ms
  end.

Definition field (k : string) (v : json) : option json :=
  match v with JObject ms => member k ms | _ => None end.

Definition as_number (v : json) : option Z :=
  match v with JNumber n => Some n | _ => None end.

Definition as_array (v : json) : option (list json) :=
  match v with JArray vs => Some vs | _ => None end.

(** A pixel and a pair of pixels as the file shows them. *)
Definition Pixel : Type := Z * Z.

Definition as_pixel (v : json) : option Pixel :=
  x ← field "x" v ≫= as_number;
  y ← field "y" v ≫= as_number;
  Some (x, y).

Definition as_pixel_pair (v : json) : option (Pixel * Pixel) :=
  p ← field "pattern_point" v ≫= as_pixel;
  q ← field "image_point" v ≫= as_pixel;
  Some (p, q).

Definition load_inliers (content : string) : option (list (Pixel * Pixel)) :=
  doc ← parse_json content;
  records ← field "points" doc ≫= as_array;
  mapM as_pixel_pair records.

(** The document [save_inliers] is meant to write for a list of pixel pairs. *)
Definition pixel_json (p : Pixel) : json :=
  JObject [("x", JNumber p.1); ("y", JNumber p.2)].

Definition pixel_pair_json (r : Pixel * Pixel) : json :=
  JObject [("pattern_point", pixel_json r.1); ("image_point", pixel_json r.2)].

Definition inliers_json (rs : list (Pixel * Pixel)) : json :=
  JObject [("points", JArray (pixel_pair_json <$> rs))].

(** The vector [main] hands to [save_inliers]: each pair, pattern point
    first. *)
Definition flatten_pairs (ps : list (Point2f * Point2f)) : list Point2f :=
  ps ≫= λ p, [p.1; p.2].

(** ** Option positions on the command line

    The arguments from [argv[3]] on are read left to right; an option that
    takes a value uses up the argument after it, which is then not looked at
    as an option.  [option_at argv i] says that [argv[i]] stands where the
    loop looks for an option. *)

Definition value_options : list string :=
  ["--soffset"; "--omax"; "--dthreshold"; "--sderivatives"; "--nsublevels";
   "--diffusivity"; "--descriptor"; "--descriptor_channels"; "--descriptor_size";
   "--show_results"; "--output"].

Definition takes_value (arg : string) : bool := bool_decide (arg ∈ value_options).

Inductive option_at (argv : list string) : nat → Prop :=
| option_at_first : option_at argv 3
| option_at_after_value i arg :
    option_at argv i → argv !! i = Some arg → takes_value arg = true →
    option_at argv (i + 2)
| option_at_after_plain i arg :
    option_at argv i → argv !! i = Some arg → takes_value arg = false →
    option_at argv (i + 1).

(** [argv[i]] is an ["--output"] that stands at an option position, so not
    one of the two image paths and not the value of the option before it, and
    [v] is the argument that follows. *)
Definition output_option (argv : list string) (i : nat) (v : string) : Prop :=
  option_at argv i ∧ argv !! i = Some "--output" ∧ argv !! (i + 1)%nat = Some v.

(** The position after [i]. *)
Definition next_option (arg : string) (i : nat) : nat :=
  if takes_value arg then (i + 2)%nat else (i + 1)%nat.


(** Text on the console: std::cerr and the help screen. *)
Definition console_event (e : Event) : Prop :=
  match e with
  | Cerr _ | InputOptionsHelp => True
  | _ => False
  end.

(** [w'] is [w] after some text on the console. *)
Definition console_only (w w' : World) : Prop :=
  files w' = files w ∧ can_open w' = can_open w
  ∧ ∃ l, log w' = log w ++ l ∧ Forall console_event l.

(** The path chosen by the ["--output"] options before position [i]: the
    value of the last of them, the default when there is none. *)
Definition path_before (argv : list string) (i : nat) (path : string) : Prop :=
  (∃ j v, (j < i)%nat ∧ output_option argv j v
          ∧ (∀ j' v', (j' < i)%nat → output_option argv j' v' → (j' ≤ j)%nat)
          ∧ path = v)
  ∨ ((∀ j v, (j < i)%nat → ¬ output_option argv j v) ∧ path = "./inliers.json").

(** What one pass of the option loop can do, told by whether the argument
    takes a value. *)
Inductive pass_outcome (argv : list string) (i : nat) (a : Args) (w : World)
    : outcome pass → Prop :=
| pass_value_missing arg :
    argv !! i = Some arg → takes_value arg = true → (length argv ≤ i + 1)%nat →
    pass_outcome argv i a w (Returns (Return (-1) a (emit (Cerr input_error) w)))
| pass_value arg v a' :
    argv !! i = Some arg → takes_value arg = true → argv !! (i + 1)%nat = Some v →
    img_path1 a' = img_path1 a → img_path2 a' = img_path2 a →
    inliers_path a' = (if decide (arg = "--output") then v else inliers_path a) →
    (arg = "--output" → options a' = options a) →
    pass_outcome argv i a w (Returns (Continue (i + 1) a' w))
| pass_plain arg a' w' :
    argv !! i = Some arg → takes_value arg = false →
    img_path1 a' = img_path1 a → img_path2 a' = img_path2 a →
    inliers_path a' = inliers_path a →
    console_only w w' →
    pass_outcome argv i a w (Returns (Continue i a' w')).

(** ** The components the specification describes

    [matches2points_nndr] belongs to the A-KAZE library and [knnMatch] to
    OpenCV; neither is part of this file.  What the specification says about
    candidate matching is stated on the model below. *)

#[local] Instance Qlt_decision (a b : Q) : Decision (a < b)%Q :=
  match Qlt_le_dec a b with
  | left h => left h
  | right h => right (Qle_not_lt _ _ h)
  end.

(** Modelled from the spec: Keypoint (section 3), a 2D floating-point
    location; the library's keypoint type is not in this file. *)
Definition Keypoint : Type := Point2f.

(** Modelled from the spec: CandidateMatch (section 3), the two points and
    the underlying ratio; produced by the library's matches2points_nndr. *)
Record CandidateMatch : Type := {
  pointA : Keypoint;
  pointB : Keypoint;
  nndr : Q
}.

(** Modelled from the spec: the Euclidean sum-of-squares metric of section
    4.1 for floating-point descriptors (computed by OpenCV's matcher). *)
Definition euclidean (u v : list Q) : Q :=
  foldr Qplus 0%Q (zip_with (λ x y, (x - y) * (x - y))%Q u v).

(** Modelled from the spec: the number of set bits of a byte, for the
    Hamming metric of section 4.1. *)
Definition popcount (byte : Z) : Z :=
  foldr Z.add 0 ((λ k, Z.b2z (Z.testbit byte k)) <$> [0; 1; 2; 3; 4; 5; 6; 7]).

(** Modelled from the spec: the Hamming (bit-popcount) metric of section 4.1
    for binary descriptors packed in bytes (computed by OpenCV's matcher). *)
Definition hamming (u v : list Z) : Q :=
  inject_Z (foldr Z.add 0 (zip_with (λ x y, popcount (Z.lxor x y)) u v)).

Section CandidateMatcher.
Context {Descriptor : Type}.
Variable distance : Descriptor → Descriptor → Q.

(** Modelled from the spec: DescriptorSet (section 2), an ordered sequence
    of keypoint and descriptor; built by the A-KAZE library. *)
Definition DescriptorSet : Type := list (Keypoint * Descriptor).

(** Modelled from the spec: the distance of [dA] to every descriptor of B
    (section 4.1), each with its index; done inside knnMatch. *)
Definition distances (dA : Descriptor) (B : DescriptorSet) : list (nat * Q) :=
  imap (λ j b, (j, distance dA b.2)) B.

(** Modelled from the spec: the smallest distance of a list and its index
    (section 4.1); the earlier entry is kept on a tie.  Done inside knnMatch. *)
Fixpoint smallest (best : nat * Q) (rest : list (nat * Q)) : nat * Q :=
  match rest with
  | [] => best
  | e :: rest => smallest (if decide (e.2 < best.2)%Q then e else best) rest
  end.

(** Modelled from the spec: the nearest neighbour among indexed distances,
    none when there is no entry (section 4.1); done inside knnMatch. *)
Definition nearest (ds : list (nat * Q)) : option (nat * Q) :=
  match ds with
  | [] => None
  | e :: rest => Some (smallest e rest)
  end.

(** Modelled from the spec: best match [(j1, d1)] and second-best
    [(j2, d2)] with [j1 ≠ j2] (section 4.1); none when B has fewer than two
    descriptors.  Done inside knnMatch with k = 2. *)
Definition two_nearest (dA : Descriptor) (B : DescriptorSet)
    : option ((nat * Q) * (nat * Q)) :=
  let ds := distances dA B in
  best ← nearest ds;
  second ← nearest (filter (λ e, e.1 ≠ best.1) ds);
  Some (best, second).

(** Modelled from the spec: the NNDR test of section 4.1 on one descriptor
    of A, [d1 < ratio * d2]; the test of the library's matches2points_nndr. *)
Definition candidate (B : DescriptorSet) (ratio : Q) (a : Keypoint * Descriptor)
    : option CandidateMatch :=
  '((j1, d1), (j2, d2)) ← two_nearest a.2 B;
  b1 ← B !! j1;
  if decide (d1 < ratio * d2)%Q then
    Some {| pointA := a.1; pointB := b1.1; nndr := (d1 / d2)%Q |}
  else None.

(** Modelled from the spec: the pass over A of section 4.1, adding each
    accepted candidate at the end of the list; the loop of the library's
    matches2points_nndr. *)
Fixpoint match_loop (A B : DescriptorSet) (ratio : Q) (found : list CandidateMatch)
    : list CandidateMatch :=
  match A with
  | [] => found
  | a :: A =>
    match_loop A B ratio
      (match candidate B ratio a with Some c => found ++ [c] | None => found end)
  end.

(** Modelled from the spec: [match(descriptorsA, descriptorsB, ratio)] of
    section 4.1; in the driver, knnMatch followed by matches2points_nndr. *)
Definition match_ (A B : DescriptorSet) (ratio : Q) : list CandidateMatch :=
  match_loop A B ratio [].

(** Modelled from the spec: what section 4.1 asks of an accepted descriptor
    [a], which the library's matches2points_nndr decides: [j1] is a nearest
    neighbour, [j2] a nearest one among the others, and the ratio test holds. *)
Definition accepts (B : DescriptorSet) (ratio : Q) (a : Keypoint * Descriptor)
    (j1 : nat) (b1 : Keypoint * Descriptor) : Prop :=
  ∃ (j2 : nat) (b2 : Keypoint * Descriptor),
    j1 ≠ j2 ∧ B !! j1 = Some b1 ∧ B !! j2 = Some b2 ∧
    (∀ j b, B !! j = Some b → (distance a.2 b1.2 <= distance a.2 b.2)%Q) ∧
    (∀ j b, j ≠ j1 → B !! j = Some b → (distance a.2 b2.2 <= distance a.2 b.2)%Q) ∧
    (distance a.2 b1.2 < ratio * distance a.2 b2.2)%Q.

End CandidateMatcher.

(** ** Reference renderings and a reference library *)

Section renderings.
Context `{Library}.

(** The pixel [save_inliers] prints for a point. *)
Definition pixel_of (p : Point2f) : Pixel := (round_coord (pt_x p), round_coord (pt_y p)).

Definition pixel_pair_of (pq : Point2f * Point2f) : Pixel * Pixel :=
  (pixel_of pq.1, pixel_of pq.2).

End renderings.

(** The records of the file, the first without the separator. *)
Fixpoint records_text (first : bool) (rs : list (Pixel * Pixel)) : string :=
  match rs with
  | [] => EmptyString
  | r :: rs =>
    (if first then EmptyString else ", ")
    +:+ record_text r.1.1 r.1.2 r.2.1 r.2.2 +:+ records_text false rs
  end.

Definition inliers_text (rs : list (Pixel * Pixel)) : string :=
  ("{" +:+ quoted "points" +:+ ": [" +:+ endl) +:+ records_text true rs +:+ "]}" +:+ endl.

(** The tokens of that text. *)
Definition pixel_tokens (p : Pixel) : list token :=
  [TLBrace; TString "x"; TColon; TNumber (print_int p.1); TComma;
   TString "y"; TColon; TNumber (print_int p.2); TRBrace].

Definition record_tokens (r : Pixel * Pixel) : list token :=
  [TLBrace; TString "pattern_point"; TColon] ++ pixel_tokens r.1
  ++ [TComma; TString "image_point"; TColon] ++ pixel_tokens r.2 ++ [TRBrace].

Fixpoint records_tokens (first : bool) (rs : list (Pixel * Pixel)) : list token :=
  match rs with
  | [] => []
  | r :: rs =>
    (if first then [] else [TComma]) ++ record_tokens r ++ records_tokens false rs
  end.

Definition inliers_tokens (rs : list (Pixel * Pixel)) : list token :=
  [TLBrace; TString "points"; TColon; TLBracket] ++ records_tokens true rs
  ++ [TRBracket; TRBrace].

(** The pixel the specification describes for a point: each coordinate
    plus one half, truncated toward zero. *)
Definition rounded_pixel (p : Point2f) : Pixel :=
  (Qtrunc (pt_x p + (1 # 2)), Qtrunc (pt_y p + (1 # 2))).

Definition rounded_pair (pq : Point2f * Point2f) : Pixel * Pixel :=
  (rounded_pixel pq.1, rounded_pixel pq.2).

(** Both rounded coordinates of the point are values of [int]. *)
Definition fits_int (p : Point2f) : Prop :=
  representable (pt_x p + (1 # 2)) ∧ representable (pt_y p + (1 # 2)).

(** The matchers applied, in order, in a stretch of the log. *)
Definition matcher_calls (l : list Event) : list Matcher :=
  omap (λ e, match e with KnnMatch m _ => Some m | _ => None end) l.

(** The library calls of the matching stage for a given matcher. *)
Definition matching_stage (m : Matcher) : list Event :=
  [KnnMatch m 2; Matches2PointsNndr DRATIO; ComputeInliersRansac MIN_H_ERROR false].

(** What the specification asks of the configuration: that some command
    line makes the driver match with another ratio, or estimate with another
    threshold or flag, than the ones built in. *)
Definition configured_at_run_time `{Library} : Prop :=
  ∃ argv w ret w' l,
    main argv w = Returns (ret, w') ∧ log w' = log w ++ l
    ∧ ((∃ r, Matches2PointsNndr r ∈ l ∧ r ≠ DRATIO)
       ∨ (∃ err flag, ComputeInliersRansac err flag ∈ l
                      ∧ (err ≠ MIN_H_ERROR ∨ flag ≠ false))).

(** A library to run the embedding on: the cast saturates at [INT_MIN]
    outside the range of [int], [atoi] and [atof] read a leading run of
    digits as far as the examples need, every image loads and no keypoint is
    found. *)
Definition saturating_cast (q : Q) : Z :=
  let z := Qtrunc q in if decide (INT_MIN ≤ z ≤ INT_MAX) then z else INT_MIN.

Definition digits_value (s : string) : Z :=
  default 0 (number_value s).

Definition sample_options : AKAZEOptions :=
  {| soffset := 8 # 5; omax := 4; dthreshold := 1 # 1000; sderivatives := 1;
     nsublevels := 4; diffusivity := 1; descriptor := 5; descriptor_channels := 3;
     descriptor_size := 0; show_results := true; verbosity := false;
     img_width := 0; img_height := 0 |}.

Definition sample_library : Library :=
  {| int_of_double := saturating_cast;
     atoi := digits_value;
     atof := λ s, inject_Z (digits_value s);
     MLDB_UPRIGHT := 4;
     MLDB := 5;
     default_options := sample_options;
     Image := unit; KeyPoint := unit; Mat := unit; DMatch := unit;
     imread := λ _ _, Some ();
     cols := λ _, 640;
     rows := λ _, 480;
     akaze_features := λ _ _, ([], ());
     knnMatch := λ _ _ _ _, [];
     matches2points_nndr := λ _ _ _ matches _, matches;
     compute_inliers_ransac := λ _ inliers _ _, inliers |}.

Definition sample_world : World :=
  {| files := ∅; can_open := λ path, negb (String.prefix "/readonly/" path); log := [] |}.

(** Data for the examples. *)
Definition at_pixel (x y : Z) : Point2f := {| pt_x := inject_Z x; pt_y := inject_Z y |}.

Definition sample_A : list (Keypoint * list Z) :=
  [(at_pixel 1 1, [15]); (at_pixel 2 2, [240])].

Definition sample_B : list (Keypoint * list Z) :=
  [(at_pixel 5 5, [15]); (at_pixel 6 6, [255]); (at_pixel 7 7, [7])].

(** ** Further notions for the driver *)

(** An option that takes a value stands at an option position, so not as
    an image path and not as the value of the option before it, and is the
    last argument of the command line. *)
Definition missing_value (argv : list string) : Prop :=
  ∃ i arg, option_at argv i ∧ argv !! i = Some arg ∧ takes_value arg = true
           ∧ (length argv ≤ i + 1)%nat.

(** The ranges the option loop enforces on the descriptor settings. *)
Definition checked_options `{Library} (o : AKAZEOptions) : Prop :=
  0 ≤ descriptor o ≤ MLDB ∧ 1 ≤ descriptor_channels o ≤ 3 ∧ 0 ≤ descriptor_size o.

(** The vector of inliers [main] computes from the parsed arguments and the
    two images (lines 94-124). *)
Definition computed_inliers `{Library} (a : Args) (img1 img2 : Image) : list Point2f :=
  let options := options a in
  let options := set_img_width (cols img1) options in
  let options := set_img_height (rows img1) options in
  let evolution1 := options in
  let options := set_img_width (cols img2) options in
  let options := set_img_height (rows img2) options in
  let evolution2 := options in
  let '(kpts1, desc1) := akaze_features evolution1 img1 in
  let '(kpts2, desc2) := akaze_features evolution2 img2 in
  let dmatches := knnMatch (select_matcher options) desc1 desc2 2 in
  let matches := matches2points_nndr kpts1 kpts2 dmatches [] DRATIO in
  compute_inliers_ransac matches [] MIN_H_ERROR false.



(** The sample library with an estimator that always hands back [inliers]. *)
Definition library_returning (inliers : list Point2f) : Library :=
  {| int_of_double := saturating_cast;
     atoi := digits_value;
     atof := λ s, inject_Z (digits_value s);
     MLDB_UPRIGHT := 4;
     MLDB := 5;
     default_options := sample_options;
     Image := unit; KeyPoint := unit; Mat := unit; DMatch := unit;
     imread := λ _ _, Some ();
     cols := λ _, 640;
     rows := λ _, 480;
     akaze_features := λ _ _, ([], ());
     knnMatch := λ _ _ _ _, [];
     matches2points_nndr := λ _ _ _ matches _, matches;
     compute_inliers_ransac := λ _ _ _ _, inliers |}.

(** * Properties *)

(** ** Text *)

Lemma append_cons (c : ascii) (s t : string) : String c s +:+ t = String c (s +:+ t).
Proof. reflexivity. Qed.

Lemma append_assoc (s t u : string) : (s +:+ t) +:+ u = s +:+ t +:+ u.
Proof. induction s as [|c s IH]; [done | by rewrite !append_cons, IH]. Qed.

Lemma append_empty_r (s : string) : s +:+ EmptyString = s.
Proof. induction s as [|c s IH]; [done | by rewrite append_cons, IH]. Qed.

(** ** The vector of point pairs *)

Lemma flatten_pairs_app (ps qs : list (Point2f * Point2f)) :
  flatten_pairs (ps ++ qs) = flatten_pairs ps ++ flatten_pairs qs.
Proof. unfold flatten_pairs. apply bind_app. Qed.

Lemma flatten_pairs_length (ps : list (Point2f * Point2f)) :
  length (flatten_pairs ps) = (2 * length ps)%nat.
Proof.
  induction ps as [|[p q] ps IH]; [done |].
  change (flatten_pairs ((p, q) :: ps)) with (p :: q :: flatten_pairs ps).
  simpl length. lia.
Qed.

Lemma flatten_pairs_lookup (pre ps : list (Point2f * Point2f)) (p q : Point2f)
    (tail : list Point2f) :
  (flatten_pairs (pre ++ (p, q) :: ps) ++ tail) !! (2 * length pre)%nat = Some p
  ∧ (flatten_pairs (pre ++ (p, q) :: ps) ++ tail) !! (2 * length pre + 1)%nat = Some q.
Proof.
  rewrite flatten_pairs_app, <- !app_assoc.
  change (flatten_pairs ((p, q) :: ps)) with (p :: q :: flatten_pairs ps).
  split.
  - rewrite lookup_app_r by (rewrite flatten_pairs_length; lia).
    rewrite flatten_pairs_length.
    by replace (2 * length pre - 2 * length pre)%nat with 0%nat by lia.
  - rewrite lookup_app_r by (rewrite flatten_pairs_length; lia).
    rewrite flatten_pairs_length.
    by replace (2 * length pre + 1 - 2 * length pre)%nat with 1%nat by lia.
Qed.

(** Every vector is a run of pairs, followed by one more point when its
    length is odd. *)
Lemma vector_as_pairs (v : list Point2f) :
  (Nat.Even (length v) → ∃ ps, v = flatten_pairs ps)
  ∧ (Nat.Odd (length v) → ∃ ps p, v = flatten_pairs ps ++ [p]).
Proof.
  induction v as [v IH] using (induction_ltof1 _ (@length Point2f)).
  unfold ltof in IH.
  destruct v as [|p [|q v]].
  - split; [by exists [] | intros [k Hk]; simpl in Hk; lia].
  - split; [intros [k Hk]; simpl in Hk; lia | by exists [], p].
  - destruct (IH v) as [IHe IHo]; [simpl; lia |].
    split; intros Hlen.
    + destruct IHe as [ps ->].
      { destruct Hlen as [k Hk]. exists (k - 1)%nat. simpl in Hk. lia. }
      by exists ((p, q) :: ps).
    + destruct IHo as (ps & r & ->).
      { destruct Hlen as [k Hk]. exists (k - 1)%nat. simpl in Hk. lia. }
      by exists ((p, q) :: ps), r.
Qed.

(** ** save_inliers *)

Lemma at_index_Some {A} (v : list A) (i : nat) (a : A) :
  v !! i = Some a → at_index v i = Returns a.
Proof. unfold at_index. by intros ->. Qed.

Lemma at_index_None {A} (v : list A) (i : nat) :
  v !! i = None → at_index v i = Undefined i.
Proof. unfold at_index. by intros ->. Qed.

Lemma bind_Returns {A B} (a : A) (f : A → outcome B) : Returns a ≫= f = f a.
Proof. reflexivity. Qed.

Lemma bind_Undefined {A B} (i : nat) (f : A → outcome B) :
  Undefined i ≫= f = Undefined i.
Proof. reflexivity. Qed.

Section save_inliers_facts.
Context `{Library}.

Lemma save_inliers_loop_step (fuel : nat) (ptpairs : list Point2f) (i : nat)
    (ipfile : string) :
  save_inliers_loop (S fuel) ptpairs i ipfile =
    if decide (i < length ptpairs)%nat then
      p ← at_index ptpairs i;
      p' ← at_index ptpairs i;
      q ← at_index ptpairs (i + 1);
      q' ← at_index ptpairs (i + 1);
      save_inliers_loop fuel ptpairs (i + 2)
        ((if decide (0 < i)%nat then ipfile +:+ ", " else ipfile)
         +:+ record_text (round_coord (pt_x p)) (round_coord (pt_y p'))
               (round_coord (pt_x q)) (round_coord (pt_y q')))
    else Returns ipfile.
Proof. reflexivity. Qed.

(** The loop on a vector made of the pairs [pre ++ ps] and of [tail], entered
    at the first point of [ps]: with no [tail] it writes the records of [ps]
    and stops, with one more point it reads the element after that point. *)
Lemma save_inliers_loop_pairs (ps pre : list (Point2f * Point2f)) (tail : list Point2f)
    (ipfile : string) (fuel : nat) :
  (length ps < fuel)%nat →
  (length tail ≤ 1)%nat →
  save_inliers_loop fuel (flatten_pairs (pre ++ ps) ++ tail) (2 * length pre) ipfile =
    match tail with
    | [] =>
      Returns (ipfile +:+
        records_text (bool_decide (length pre = 0%nat)) (pixel_pair_of <$> ps))
    | _ => Undefined (length (flatten_pairs (pre ++ ps) ++ tail))
    end.
Proof.
  revert pre ipfile fuel.
  induction ps as [|[p q] ps IH]; intros pre ipfile fuel Hfuel Htail.
  - destruct fuel as [|fuel]; [simpl in Hfuel; lia |].
    rewrite app_nil_r, save_inliers_loop_step.
    destruct tail as [|r [|]]; [| |simpl in Htail; lia].
    + rewrite app_nil_r, flatten_pairs_length.
      rewrite decide_False by lia. simpl records_text. by rewrite append_empty_r.
    + rewrite length_app, flatten_pairs_length. simpl length.
      rewrite decide_True by lia.
      assert ((flatten_pairs pre ++ [r]) !! (2 * length pre)%nat = Some r) as Hr.
      { rewrite lookup_app_r by (rewrite flatten_pairs_length; lia).
        rewrite flatten_pairs_length.
        by replace (2 * length pre - 2 * length pre)%nat with 0%nat by lia. }
      assert ((flatten_pairs pre ++ [r]) !! (2 * length pre + 1)%nat = None) as Hn.
      { apply lookup_ge_None. rewrite length_app, flatten_pairs_length. simpl. lia. }
      rewrite (at_index_Some _ _ _ Hr), !bind_Returns.
      rewrite (at_index_None _ _ Hn), bind_Undefined.
      f_equal; lia.
  - destruct fuel as [|fuel]; [simpl in Hfuel; lia |].
    rewrite save_inliers_loop_step.
    destruct (flatten_pairs_lookup pre ps p q tail) as [Hp Hq].
    rewrite decide_True.
    2:{ rewrite length_app, flatten_pairs_length, length_app. simpl. lia. }
    rewrite (at_index_Some _ _ _ Hp), !bind_Returns.
    rewrite (at_index_Some _ _ _ Hq), !bind_Returns.
    replace (2 * length pre + 2)%nat with (2 * length (pre ++ [(p, q)]))%nat
      by (rewrite length_app; simpl; lia).
    replace (pre ++ (p, q) :: ps) with ((pre ++ [(p, q)]) ++ ps)
      by (by rewrite <- app_assoc).
    rewrite IH by (simpl in Hfuel; lia || done).
    destruct tail as [|r tail]; [|done].
    f_equal.
    rewrite (bool_decide_eq_false_2 (length (pre ++ [(p, q)]) = 0%nat))
      by (rewrite length_app; simpl; lia).
    rewrite fmap_cons. simpl records_text.
    destruct pre as [|x pre].
    + simpl length. rewrite decide_False by lia.
      rewrite (bool_decide_eq_true_2 (0 = 0)%nat) by done.
      rewrite append_assoc. reflexivity.
    + rewrite decide_True by (simpl; lia).
      rewrite (bool_decide_eq_false_2 (length (x :: pre) = 0%nat)) by done.
      by rewrite !append_assoc.
Qed.

(** On a vector of whole pairs the function writes the file. *)
Lemma save_inliers_pairs (outFile : string) (ps : list (Point2f * Point2f)) (w : World) :
  can_open w outFile = true →
  save_inliers outFile (flatten_pairs ps) w =
    Returns (0, write_file outFile (inliers_text (pixel_pair_of <$> ps)) w).
Proof.
  intros Hopen. unfold save_inliers. rewrite Hopen.
  pose proof (save_inliers_loop_pairs ps [] [] ("{" +:+ quoted "points" +:+ ": [" +:+ endl)
    (S (length (flatten_pairs ps)))) as Hloop.
  rewrite app_nil_r in Hloop. simpl app in Hloop.
  change (2 * length [])%nat with 0%nat in Hloop.
  rewrite Hloop by (rewrite ?flatten_pairs_length; simpl; lia).
  rewrite bind_Returns. unfold inliers_text.
  by rewrite (bool_decide_eq_true_2 (length [] = 0%nat)), !append_assoc.
Qed.

(** On a vector with a point left over it reads the element after the last. *)
Lemma save_inliers_left_over (outFile : string) (ps : list (Point2f * Point2f))
    (p : Point2f) (w : World) :
  can_open w outFile = true →
  save_inliers outFile (flatten_pairs ps ++ [p]) w =
    Undefined (length (flatten_pairs ps ++ [p])).
Proof.
  intros Hopen. unfold save_inliers. rewrite Hopen.
  pose proof (save_inliers_loop_pairs ps [] [p] ("{" +:+ quoted "points" +:+ ": [" +:+ endl)
    (S (length (flatten_pairs ps ++ [p])))) as Hloop.
  simpl app in Hloop. change (2 * length [])%nat with 0%nat in Hloop.
  rewrite Hloop; [done | | simpl; lia].
  rewrite length_app, flatten_pairs_length. simpl. lia.
Qed.

End save_inliers_facts.

(** ** Reading back what was written *)

Lemma lex_run_app (s t : string) (m : lex_mode) :
  lex_run m (s +:+ t) =
    '(ts, m1) ← lex_run m s; '(ts', m2) ← lex_run m1 t; Some (ts ++ ts', m2).
Proof.
  revert m. induction s as [|c s IH]; intros m.
  - change (EmptyString +:+ t) with t. simpl.
    by destruct (lex_run m t) as [[??]|].
  - rewrite append_cons. simpl.
    destruct (lex_step m c) as [[ts0 m0]|]; [|done]. simpl.
    rewrite IH.
    destruct (lex_run m0 s) as [[ts1 m1]|]; [|done]. simpl.
    destruct (lex_run m1 t) as [[ts2 m2]|]; [|done]. simpl.
    by rewrite app_assoc.
Qed.

Lemma snoc_append (s : string) (c : ascii) (t : string) :
  snoc s c +:+ t = s +:+ String c t.
Proof. unfold snoc. by rewrite append_assoc. Qed.

(** A run of digits only makes the number being read longer. *)
Lemma lex_run_digits (d : Decimal.uint) (text : string) :
  lex_run (InNumber text) (NilEmpty.string_of_uint d) =
    Some ([], InNumber (text +:+ NilEmpty.string_of_uint d)).
Proof.
  revert text.
  induction d as [|d IH|d IH|d IH|d IH|d IH|d IH|d IH|d IH|d IH|d IH]; intros text;
    [simpl; by rewrite append_empty_r | ..];
    simpl; rewrite IH; simpl; by rewrite snoc_append.
Qed.

Lemma lex_run_uint (d : Decimal.uint) :
  d ≠ Decimal.Nil →
  lex_run Idle (NilEmpty.string_of_uint d) =
    Some ([], InNumber (NilEmpty.string_of_uint d)).
Proof.
  destruct d; [done | ..]; intros _; simpl; rewrite lex_run_digits; reflexivity.
Qed.

Lemma lex_run_int (n : Z) :
  lex_run Idle (print_int n) = Some ([], InNumber (print_int n)).
Proof.
  unfold print_int. destruct n as [|p|p]; [reflexivity | ..]; simpl Z.to_int.
  - pose proof (DecimalPos.Unsigned.to_uint_nonnil p) as Hnil.
    unfold NilZero.string_of_int, NilZero.string_of_uint.
    destruct (Pos.to_uint p) eqn:E; [done | ..]; rewrite <- E;
      apply lex_run_uint; congruence.
  - pose proof (DecimalPos.Unsigned.to_uint_nonnil p) as Hnil.
    unfold NilZero.string_of_int, NilZero.string_of_uint.
    destruct (Pos.to_uint p) eqn:E; [done | ..]; rewrite <- E;
      simpl; rewrite lex_run_digits; reflexivity.
Qed.

Lemma number_value_print_int (n : Z) : number_value (print_int n) = Some n.
Proof.
  unfold number_value, print_int.
  rewrite NilZero.isi.
  - simpl. by rewrite DecimalZ.of_to.
  - destruct n as [|p|p]; simpl; try done.
    intros [= E]. by apply (DecimalPos.Unsigned.to_uint_nonnil p).
  - destruct n as [|p|p]; simpl; try done.
    intros [= E]. by apply (DecimalPos.Unsigned.to_uint_nonnil p).
Qed.

(** A character that is no digit ends the number being read. *)
Lemma lex_run_end_number (text : string) (c : ascii) (s : string) :
  is_digit c = false →
  lex_run (InNumber text) (String c s) =
    '(ts, m) ← lex_run Idle (String c s); Some (TNumber text :: ts, m).
Proof.
  intros Hc. simpl. rewrite Hc.
  destruct (lex_idle c) as [[ts0 m0]|]; [|done]. simpl.
  by destruct (lex_run m0 s) as [[ts1 m1]|].
Qed.

(** One step of a proof about the lexer: split off the first piece of the
    text, which is either a number or a literal that evaluates. *)
Ltac lex_literal :=
  lazymatch goal with
  | |- context [lex_run Idle ?piece] =>
    let r := eval vm_compute in (lex_run Idle piece) in
    change (lex_run Idle piece) with r
  end.

Ltac lex_piece :=
  rewrite lex_run_app;
  first
    [ rewrite lex_run_int
    | rewrite lex_run_end_number by reflexivity; lex_literal
    | lex_literal ];
  cbn [mbind option_bind app].

(** The last piece, which is all literal. *)
Ltac lex_rest :=
  lazymatch goal with
  | |- context [lex_run ?m ?piece] =>
    let r := eval vm_compute in piece in
    change piece with r
  end;
  first
    [ rewrite lex_run_end_number by reflexivity; lex_literal
    | lex_literal ];
  cbn [mbind option_bind app].

Lemma lex_run_record_text (x1 y1 x2 y2 : Z) :
  lex_run Idle (record_text x1 y1 x2 y2) =
    Some (record_tokens ((x1, y1), (x2, y2)), Idle).
Proof.
  unfold record_text.
  do 20 lex_piece. lex_rest. reflexivity.
Qed.

Lemma lex_run_records_text (first : bool) (rs : list (Pixel * Pixel)) :
  lex_run Idle (records_text first rs) = Some (records_tokens first rs, Idle).
Proof.
  revert first. induction rs as [|[[x1 y1] [x2 y2]] rs IH]; intros first; [done |].
  cbn [records_text records_tokens fst snd].
  rewrite lex_run_app.
  replace (lex_run Idle (if first then EmptyString else ", "))
    with (Some (if first then [] else [TComma], Idle)) by (by destruct first).
  cbn [mbind option_bind].
  rewrite lex_run_app, lex_run_record_text. cbn [mbind option_bind].
  rewrite IH. cbn [mbind option_bind]. reflexivity.
Qed.

Lemma lex_inliers_text (rs : list (Pixel * Pixel)) :
  lex (inliers_text rs) = Some (inliers_tokens rs).
Proof.
  unfold lex, inliers_text.
  rewrite lex_run_app.
  lazymatch goal with
  | |- context [lex_run Idle ?piece] =>
    let r := eval vm_compute in (lex_run Idle piece) in
    change (lex_run Idle piece) with r
  end.
  cbn [mbind option_bind].
  rewrite lex_run_app, lex_run_records_text. cbn [mbind option_bind].
  lex_rest. reflexivity.
Qed.

Lemma parse_pixel (fuel : nat) (p : Pixel) (rest : list token) :
  parse_value (4 + fuel) (pixel_tokens p ++ rest) = Some (pixel_json p, rest).
Proof.
  destruct p as [x y]. unfold pixel_tokens, pixel_json.
  cbn [app fst snd Nat.add parse_value parse_members].
  rewrite !number_value_print_int. cbn [mbind option_bind].
  rewrite !number_value_print_int. reflexivity.
Qed.

Lemma parse_record (fuel : nat) (r : Pixel * Pixel) (rest : list token) :
  parse_value (7 + fuel) (record_tokens r ++ rest) = Some (pixel_pair_json r, rest).
Proof.
  destruct r as [p q]. unfold record_tokens, pixel_pair_json.
  cbn [fst snd]. rewrite <- !app_assoc.
  change (7 + fuel)%nat with (S (S (4 + S fuel))).
  cbn [app parse_value parse_members].
  rewrite parse_pixel. cbn [mbind option_bind].
  change (4 + S fuel)%nat with (S (4 + fuel)).
  cbn [parse_members]. rewrite parse_pixel. reflexivity.
Qed.

(** The records of a non-empty array up to the closing bracket. *)
Lemma parse_records (rs : list (Pixel * Pixel)) (r : Pixel * Pixel) (fuel : nat)
    (rest : list token) :
  parse_elements (8 + length rs + fuel)
    (record_tokens r ++ records_tokens false rs ++ TRBracket :: rest) =
    Some (pixel_pair_json <$> r :: rs, rest).
Proof.
  revert r fuel. induction rs as [|r' rs IH]; intros r fuel.
  - change (8 + length [] + fuel)%nat with (S (7 + fuel)).
    cbn [parse_elements records_tokens app].
    rewrite parse_record. reflexivity.
  - replace (8 + length (r' :: rs) + fuel)%nat with (S (7 + (1 + length rs + fuel)))
      by (simpl; lia).
    cbn [parse_elements]. rewrite parse_record. cbn [mbind option_bind].
    cbn [records_tokens app]. rewrite <- app_assoc.
    replace (7 + (1 + length rs + fuel))%nat with (8 + length rs + fuel)%nat by lia.
    rewrite IH. reflexivity.
Qed.

Lemma records_tokens_length (first : bool) (rs : list (Pixel * Pixel)) :
  (length rs ≤ length (records_tokens first rs))%nat.
Proof.
  revert first. induction rs as [|r rs IH]; intros first; [done |].
  cbn [records_tokens]. rewrite !length_app. specialize (IH false).
  unfold record_tokens. rewrite !length_app. simpl. lia.
Qed.

Lemma parse_value_array (fuel : nat) (ts : list token) :
  head ts = Some TLBrace →
  parse_value (S fuel) (TLBracket :: ts) =
    '(vs, ts') ← parse_elements fuel ts; Some (JArray vs, ts').
Proof. by destruct ts as [|[] ts]. Qed.

Lemma parse_value_object (fuel : nat) (k : string) (ts : list token) :
  parse_value (S fuel) (TLBrace :: TString k :: ts) =
    '(ms, ts') ← parse_members fuel (TString k :: ts); Some (JObject ms, ts').
Proof. reflexivity. Qed.

Lemma parse_members_step (fuel : nat) (k : string) (ts : list token) :
  parse_members (S fuel) (TString k :: TColon :: ts) =
    '(v, ts) ← parse_value fuel ts;
    match ts with
    | TComma :: ts => '(ms, ts) ← parse_members fuel ts; Some ((k, v) :: ms, ts)
    | TRBrace :: ts => Some ([(k, v)], ts)
    | _ => None
    end.
Proof. reflexivity. Qed.

Lemma parse_inliers_tokens (rs : list (Pixel * Pixel)) :
  parse_value (S (length (inliers_tokens rs))) (inliers_tokens rs) =
    Some (inliers_json rs, []).
Proof.
  unfold inliers_tokens, inliers_json.
  destruct rs as [|r rs]; [reflexivity |].
  pose proof (records_tokens_length false rs) as Hlen.
  cbn [records_tokens app]. rewrite <- !app_assoc.
  set (ts := record_tokens r ++ records_tokens false rs ++ [TRBracket; TRBrace]).
  assert (9 + length rs ≤ length ts)%nat as Hts.
  { unfold ts, record_tokens. rewrite !length_app. simpl. lia. }
  cbn [length].
  replace (S (S (length ts))) with (8 + length rs + (length ts - 6 - length rs))%nat
    by lia.
  rewrite parse_value_object, parse_members_step, parse_value_array by done.
  unfold ts. rewrite parse_records. reflexivity.
Qed.

Lemma parse_json_inliers_text (rs : list (Pixel * Pixel)) :
  parse_json (inliers_text rs) = Some (inliers_json rs).
Proof.
  unfold parse_json. rewrite lex_inliers_text. cbn [mbind option_bind].
  by rewrite parse_inliers_tokens.
Qed.

Lemma as_pixel_pair_json (r : Pixel * Pixel) : as_pixel_pair (pixel_pair_json r) = Some r.
Proof. by destruct r as [[x1 y1] [x2 y2]]. Qed.

Lemma load_inliers_text (rs : list (Pixel * Pixel)) :
  load_inliers (inliers_text rs) = Some rs.
Proof.
  unfold load_inliers. rewrite parse_json_inliers_text.
  cbn [mbind option_bind inliers_json field member String.eqb as_array].
  change (field "points" (inliers_json rs) ≫= as_array)
    with (Some (pixel_pair_json <$> rs)).
  cbn [mbind option_bind].
  apply mapM_Some. induction rs as [|r rs IH]; constructor; [|done].
  apply as_pixel_pair_json.
Qed.

(** ** Truncation *)

Lemma Qtrunc_floor (q : Q) : (0 <= q)%Q → Qtrunc q = Qfloor q.
Proof.
  destruct q as [a b]. unfold Qle, Qtrunc, Qfloor. simpl. intros Ha.
  apply Z.quot_div_nonneg; lia.
Qed.

Lemma Qtrunc_ceiling (q : Q) : (q <= 0)%Q → Qtrunc q = Qceiling q.
Proof.
  destruct q as [a b]. unfold Qle, Qtrunc, Qceiling, Qfloor. simpl. intros Ha.
  rewrite <- (Z.opp_involutive a) at 1. rewrite Z.quot_opp_l by lia.
  f_equal. apply Z.quot_div_nonneg; lia.
Qed.

(** For a coordinate that is not negative, adding one half and truncating
    gives the nearest integer, the upper one half way between two. *)
Lemma Qtrunc_half_nearest (c : Q) :
  (0 <= c)%Q →
  (c - (1 # 2) < inject_Z (Qtrunc (c + (1 # 2))) <= c + (1 # 2))%Q.
Proof.
  intros Hc. rewrite Qtrunc_floor by lra.
  pose proof (Qfloor_le (c + (1 # 2))) as Hle.
  pose proof (Qlt_floor (c + (1 # 2))) as Hlt.
  rewrite inject_Z_plus in Hlt. change (inject_Z 1) with 1%Q in Hlt.
  split; lra.
Qed.

Lemma saturating_cast_conforming : @conforming_cast sample_library.
Proof.
  intros q Hq. unfold int_of_double, sample_library, saturating_cast.
  by rewrite decide_True.
Qed.

(** ** parse_input_options *)

Lemma console_only_refl (w : World) : console_only w w.
Proof. repeat split. exists []. by rewrite app_nil_r. Qed.

Lemma console_only_emit (w w' : World) (e : Event) :
  console_only w w' → console_event e → console_only w (emit e w').
Proof.
  intros (Hf & Hc & l & Hl & Hall) He. repeat split; [done.. |].
  exists (l ++ [e]). simpl. rewrite Hl, app_assoc. split; [done |].
  apply Forall_app. by split; [|constructor].
Qed.

Lemma console_only_trans (w1 w2 w3 : World) :
  console_only w1 w2 → console_only w2 w3 → console_only w1 w3.
Proof.
  intros (Hf & Hc & l & Hl & Hall) (Hf' & Hc' & l' & Hl' & Hall').
  repeat split; [congruence.. |].
  exists (l ++ l'). rewrite Hl', Hl, app_assoc. split; [done |].
  by apply Forall_app.
Qed.

Lemma takes_value_plain (arg : string) :
  arg ∉ value_options → takes_value arg = false.
Proof. intros Hn. by apply bool_decide_eq_false. Qed.

(** *** Option positions *)

Lemma option_at_ge (argv : list string) (i : nat) : option_at argv i → (3 ≤ i)%nat.
Proof. induction 1; lia. Qed.

(** Between an option position and the next there is none. *)
Lemma option_at_next (argv : list string) (j i : nat) (arg : string) :
  option_at argv j → option_at argv i → argv !! i = Some arg → (i < j)%nat →
  (next_option arg i ≤ j)%nat.
Proof.
  revert i arg. induction j as [j IH] using lt_wf_ind.
  intros i arg Hj Hi Harg Hlt. unfold next_option.
  inversion Hj as [E|k argk Hk Hargk Htk E|k argk Hk Hargk Htk E]; subst.
  - apply option_at_ge in Hi. lia.
  - destruct (decide (i < k)%nat) as [Hik|Hik].
    + specialize (IH k ltac:(lia) i arg Hk Hi Harg Hik).
      unfold next_option in IH. destruct (takes_value arg); lia.
    + destruct (decide (i = k)) as [->|Hne].
      * rewrite Harg in Hargk. injection Hargk as ->. rewrite Htk. lia.
      * assert (i = k + 1)%nat as -> by lia.
        specialize (IH (k + 1)%nat ltac:(lia) k argk Hi Hk Hargk ltac:(lia)).
        unfold next_option in IH. rewrite Htk in IH. lia.
  - destruct (decide (i < k)%nat) as [Hik|Hik].
    + specialize (IH k ltac:(lia) i arg Hk Hi Harg Hik).
      unfold next_option in IH. destruct (takes_value arg); lia.
    + assert (i = k) as -> by lia.
      rewrite Harg in Hargk. injection Hargk as ->. rewrite Htk. lia.
Qed.

Lemma output_option_bound (argv : list string) (j : nat) (v : string) :
  output_option argv j v → (j + 1 < length argv)%nat.
Proof. intros (_ & _ & Hv). by apply lookup_lt_Some in Hv. Qed.

(** One pass further: the path before the next position. *)
Lemma path_before_next (argv : list string) (i : nat) (arg : string) (path : string) :
  option_at argv i → argv !! i = Some arg → arg ≠ "--output" →
  path_before argv i path → path_before argv (next_option arg i) path.
Proof.
  intros Hi Harg Hne Hpath.
  assert (∀ j v, (j < next_option arg i)%nat → output_option argv j v → (j < i)%nat)
    as Hold.
  { intros j v Hj (Hoj & Hargj & _).
    destruct (decide (j < i)%nat) as [|Hge]; [done | exfalso].
    destruct (decide (j = i)) as [->|Hji]; [congruence |].
    pose proof (option_at_next argv j i arg Hoj Hi Harg ltac:(lia)). lia. }
  assert (i < next_option arg i)%nat as Hlt
    by (unfold next_option; destruct (takes_value arg); lia).
  destruct Hpath as [(j & v & Hj & Hout & Hlast & ->)|[Hnone ->]].
  - left. exists j, v. split_and!; [lia | done | | done].
    intros j' v' Hj' Hout'. eapply Hlast; [|done]. by eapply Hold.
  - right. split; [|done]. intros j v Hj Hout. eapply Hnone; [|done]. by eapply Hold.
Qed.

Lemma path_before_output (argv : list string) (i : nat) (v : string) :
  option_at argv i → argv !! i = Some "--output" → argv !! (i + 1)%nat = Some v →
  path_before argv (i + 2) v.
Proof.
  intros Hi Harg Hv. left. exists i, v. split_and!; [lia | done | | done].
  intros j v' Hj (Hoj & Hargj & _).
  destruct (decide (j ≤ i)%nat) as [|Hgt]; [done | exfalso].
  pose proof (option_at_next argv j i _ Hoj Hi Harg ltac:(lia)) as Hnext.
  unfold next_option in Hnext. simpl in Hnext. lia.
Qed.

Section parse_facts.
Context `{Library}.

Lemma option_value_outcome (argv : list string) (i : nat) (a : Args) (w : World)
    (arg : string) (assign : string → Args → Args) :
  argv !! i = Some arg →
  takes_value arg = true →
  (∀ v, img_path1 (assign v a) = img_path1 a) →
  (∀ v, img_path2 (assign v a) = img_path2 a) →
  (∀ v, inliers_path (assign v a) =
        if decide (arg = "--output") then v else inliers_path a) →
  (∀ v, arg = "--output" → options (assign v a) = options a) →
  pass_outcome argv i a w (option_value argv i a w assign).
Proof.
  intros Harg Htakes H1 H2 H3 H4. unfold option_value.
  destruct (decide (length argv ≤ i + 1)%nat) as [Hlen|Hlen].
  - by eapply pass_value_missing.
  - destruct (lookup_lt_is_Some_2 argv (i + 1)%nat) as [v Hv]; [lia |].
    rewrite (at_index_Some _ _ _ Hv), bind_Returns.
    apply (pass_value _ _ _ _ arg v (assign v a)); auto.
Qed.

Lemma option_pass_outcome (argv : list string) (i : nat) (a : Args) (w : World) :
  (i < length argv)%nat →
  pass_outcome argv i a w (option_pass argv i a w).
Proof.
  intros Hi. destruct (lookup_lt_is_Some_2 argv i Hi) as [arg Harg].
  unfold option_pass. rewrite (at_index_Some _ _ _ Harg), bind_Returns.
  repeat lazymatch goal with
  | |- context [String.eqb arg ?flag] =>
    destruct (String.eqb_spec arg flag) as [->|?];
      [first [ by eapply option_value_outcome
             | eapply pass_plain; eauto using console_only_refl; done ] |]
  end.
  assert (takes_value arg = false) as Hplain.
  { apply takes_value_plain. unfold value_options.
    rewrite !not_elem_of_cons. repeat split; auto. apply not_elem_of_nil. }
  destruct (String.prefix "--" arg).
  - eapply pass_plain; eauto.
    apply console_only_emit; [apply console_only_refl | exact I].
  - eapply pass_plain; eauto using console_only_refl.
Qed.

(** The loop ends in a [return]; it leaves the image paths, the files and
    all but the console alone. *)
Lemma option_loop_returns (fuel : nat) (argv : list string) (i : nat) (a : Args)
    (w : World) :
  (length argv - i < fuel)%nat →
  ∃ ret a' w',
    option_loop fuel argv i a w = Returns (ret, a', w')
    ∧ img_path1 a' = img_path1 a ∧ img_path2 a' = img_path2 a
    ∧ console_only w w'.
Proof.
  revert i a w. induction fuel as [|fuel IH]; intros i a w Hfuel; [lia |].
  simpl. destruct (decide (i < length argv)%nat) as [Hi|Hi].
  - destruct (option_pass_outcome argv i a w Hi)
      as [arg ? ? ?|arg v a1 ? ? ? Hp1 Hp2 ? ?|arg a1 w1 ? ? Hp1 Hp2 ? Hw];
      rewrite bind_Returns.
    + exists (-1), a, (emit (Cerr input_error) w). split_and!; try done.
      apply console_only_emit; [apply console_only_refl | exact I].
    + destruct (IH (i + 1 + 1)%nat a1 w) as (ret & a' & w' & -> & ? & ? & ?); [lia |].
      exists ret, a', w'. split_and!; [done | congruence.. | done].
    + destruct (IH (i + 1)%nat a1 w1) as (ret & a' & w' & -> & ? & ? & ?); [lia |].
      exists ret, a', w'. split_and!; [done | congruence.. |].
      by eapply console_only_trans.
  - exists 0, a, w. split_and!; try done. apply console_only_refl.
Qed.

(** When the loop returns 0 the path is the one the ["--output"] options
    of the whole command line choose. *)
Lemma option_loop_path (fuel : nat) (argv : list string) (i : nat) (a a' : Args)
    (w w' : World) :
  option_at argv i →
  path_before argv i (inliers_path a) →
  option_loop fuel argv i a w = Returns (0, a', w') →
  path_before argv (length argv) (inliers_path a').
Proof.
  revert i a w. induction fuel as [|fuel IH]; intros i a w Hi Hpath; [done |].
  simpl. destruct (decide (i < length argv)%nat) as [Hlt|Hge].
  - destruct (option_pass_outcome argv i a w Hlt)
      as [arg ? ? ?|arg v a1 Harg Htakes Hv _ _ Hp _|arg a1 w1 Harg Htakes _ _ Hp _];
      rewrite bind_Returns.
    + intros [=].
    + apply IH.
      * replace (i + 1 + 1)%nat with (i + 2)%nat by lia.
        by eapply option_at_after_value.
      * rewrite Hp. replace (i + 1 + 1)%nat with (i + 2)%nat by lia.
        destruct (decide (arg = "--output")) as [->|Hne].
        -- by apply path_before_output.
        -- pose proof (path_before_next argv i arg _ Hi Harg Hne Hpath) as Hnext.
           unfold next_option in Hnext. by rewrite Htakes in Hnext.
    + apply IH.
      * by eapply option_at_after_plain.
      * rewrite Hp.
        assert (arg ≠ "--output") as Hne by (by intros ->).
        pose proof (path_before_next argv i arg _ Hi Harg Hne Hpath) as Hnext.
        unfold next_option in Hnext. by rewrite Htakes in Hnext.
  - intros [= <- <-].
    destruct Hpath as [(j & v & Hj & Hout & Hlast & ->)|[Hnone ->]].
    + left. exists j, v. pose proof (output_option_bound _ _ _ Hout).
      split_and!; [lia | done | | done].
      intros j' v' _ Hout'. pose proof (output_option_bound _ _ _ Hout').
      eapply Hlast; [lia | done].
    + right. split; [|done]. intros j v _ Hout.
      pose proof (output_option_bound _ _ _ Hout).
      eapply Hnone; [|done]. lia.
Qed.

(** The ways [parse_input_options] can end. *)
Lemma parse_input_options_cases (a : Args) (argv : list string) (w : World) :
  (∃ a' w', parse_input_options a argv w = Returns (-1, a', w')
            ∧ console_only w w'
            ∧ ((length argv ≤ 1)%nat ∨ argv !! 1%nat = Some "--help"))
  ∨ (parse_input_options a argv w = Undefined 2
     ∧ length argv = 2%nat ∧ argv !! 1%nat ≠ Some "--help")
  ∨ (∃ arg1 arg2 a0,
       argv !! 1%nat = Some arg1 ∧ arg1 ≠ "--help" ∧ argv !! 2%nat = Some arg2
       ∧ img_path1 a0 = arg1 ∧ img_path2 a0 = arg2
       ∧ inliers_path a0 = "./inliers.json"
       ∧ parse_input_options a argv w = option_loop (length argv) argv 3 a0 w).
Proof.
  unfold parse_input_options.
  destruct (decide (length argv = 1%nat)) as [Hone|Hone].
  { left. eexists _, _. split_and!; [done | | left; lia].
    apply console_only_emit; [apply console_only_refl | exact I]. }
  destruct (decide (2 ≤ length argv)%nat) as [Htwo|Htwo].
  2:{ left. eexists _, _. split_and!; [done | | left; lia].
      repeat (apply console_only_emit; [| exact I]). apply console_only_refl. }
  destruct (lookup_lt_is_Some_2 argv 1%nat) as [arg1 Harg1]; [lia |].
  rewrite (at_index_Some _ _ _ Harg1), bind_Returns.
  destruct (String.eqb_spec arg1 "--help") as [->|Hhelp].
  { left. eexists _, _. split_and!; [done | | by right].
    apply console_only_emit; [apply console_only_refl | exact I]. }
  destruct (argv !! 2%nat) as [arg2|] eqn:Harg2.
  - right; right. rewrite (at_index_Some _ _ _ Harg2), bind_Returns.
    eexists arg1, arg2, _. split_and!; [done | done | done | | | | done]; done.
  - right; left. rewrite (at_index_None _ _ Harg2), bind_Undefined.
    apply lookup_ge_None in Harg2. split_and!; [done | lia | congruence].
Qed.

End parse_facts.

(** ** main *)

Lemma matcher_calls_console (l : list Event) :
  Forall console_event l → matcher_calls l = [].
Proof.
  induction 1 as [|e l He _ IH]; [done |].
  unfold matcher_calls in *. cbn [omap list_omap]. rewrite IH. by destruct e.
Qed.

Section main_facts.
Context `{Library}.

Lemma parse_input_options_console (a : Args) (argv : list string) (w : World)
    (ret : Z) (a' : Args) (w' : World) :
  parse_input_options a argv w = Returns (ret, a', w') → console_only w w'.
Proof.
  intros Hparse.
  destruct (parse_input_options_cases a argv w)
    as [(a1 & w1 & Hp & Hw & _)|[(Hp & _)|(arg1 & arg2 & a0 & _ & _ & Harg2 & _ & _ & _ & Hp)]].
  - rewrite Hp in Hparse. by injection Hparse as <- <- <-.
  - by rewrite Hp in Hparse.
  - rewrite Hp in Hparse.
    destruct (option_loop_returns (length argv) argv 3 a0 w) as (r & a2 & w2 & Hl & _ & _ & Hw).
    { apply lookup_lt_Some in Harg2. lia. }
    rewrite Hl in Hparse. by injection Hparse as <- <- <-.
Qed.

(** How a run of [main] that returns ends: with -1 and only console
    output, or with 0 after the matching stage and [save_inliers]. *)
Lemma main_returns (argv : list string) (w : World) (ret : Z) (w' : World) :
  main argv w = Returns (ret, w') →
  (ret = -1 ∧ console_only w w')
  ∨ (ret = 0 ∧ ∃ a w1 tail,
       parse_input_options initial_args argv w = Returns (0, a, w1)
       ∧ console_only w w1
       ∧ log w' = log w1 ++ matching_stage (select_matcher (options a)) ++ tail
       ∧ Forall console_event tail).
Proof.
  unfold main. intros Hmain.
  destruct (parse_input_options initial_args argv w) as [[[r a] w1]| |] eqn:Hparse;
    [|done..].
  pose proof (parse_input_options_console _ _ _ _ _ _ Hparse) as Hw1.
  rewrite bind_Returns in Hmain.
  destruct (decide (r ≠ 0)) as [Hr|Hr].
  { injection Hmain as <- <-. by left. }
  assert (r = 0) as -> by lia.
  destruct (imread w1 (img_path1 a)) as [img1|].
  2:{ injection Hmain as <- <-. left. split; [done |].
      by apply console_only_emit. }
  destruct (imread w1 (img_path2 a)) as [img2|].
  2:{ injection Hmain as <- <-. left. split; [done |].
      by apply console_only_emit. }
  destruct (akaze_features _ img1) as [kpts1 desc1].
  destruct (akaze_features _ img2) as [kpts2 desc2].
  match type of Hmain with
  | context [save_inliers ?path ?pts ?w2] =>
    destruct (save_inliers path pts w2) as [[r2 w3]| |] eqn:Hsave; [|done..]
  end.
  rewrite bind_Returns in Hmain. injection Hmain as <- <-.
  right. split; [done |]. unfold save_inliers in Hsave.
  destruct (can_open _ _).
  - destruct (save_inliers_loop _ _ _ _) as [text| |]; [|done..].
    rewrite bind_Returns in Hsave. injection Hsave as <- <-.
    exists a, w1, []. split_and!; try done. simpl. by rewrite <- !app_assoc.
  - injection Hsave as <- <-.
    exists a, w1, [Cerr (open_error (inliers_path a))].
    split_and!; try done.
    + simpl. by rewrite <- !app_assoc.
    + by repeat constructor.
Qed.

End main_facts.

(** ** Candidate matching *)

Lemma smallest_spec (best : nat * Q) (rest : list (nat * Q)) :
  smallest best rest ∈ best :: rest
  ∧ ∀ e, e ∈ best :: rest → ((smallest best rest).2 <= e.2)%Q.
Proof.
  revert best. induction rest as [|x rest IH]; intros best.
  - simpl. split; [apply list_elem_of_here |].
    intros e He. apply list_elem_of_singleton in He as ->. apply Qle_refl.
  - simpl. destruct (decide (x.2 < best.2)%Q) as [Hlt|Hge].
    + destruct (IH x) as [Hin Hmin]. split.
      * by apply list_elem_of_further.
      * intros e He. apply elem_of_cons in He as [->|He]; [|by apply Hmin].
        eapply Qle_trans; [apply Hmin, list_elem_of_here |]. by apply Qlt_le_weak.
    + destruct (IH best) as [Hin Hmin]. split.
      * apply elem_of_cons in Hin as [->|Hin]; [apply list_elem_of_here |].
        by do 2 apply list_elem_of_further.
      * intros e He. apply elem_of_cons in He as [->|He].
        -- apply Hmin, list_elem_of_here.
        -- apply elem_of_cons in He as [->|He].
           ++ eapply Qle_trans; [apply Hmin, list_elem_of_here |].
              by apply Qnot_lt_le.
           ++ by apply Hmin, list_elem_of_further.
Qed.

Lemma nearest_spec (ds : list (nat * Q)) (e : nat * Q) :
  nearest ds = Some e → e ∈ ds ∧ ∀ e', e' ∈ ds → (e.2 <= e'.2)%Q.
Proof.
  destruct ds as [|x ds]; [done |]. intros [= <-]. apply smallest_spec.
Qed.

Lemma nearest_is_Some (ds : list (nat * Q)) (e : nat * Q) :
  e ∈ ds → is_Some (nearest ds).
Proof. destruct ds; [by intros ?%elem_of_nil | by eexists]. Qed.

Section CandidateMatcher_facts.
Context {Descriptor : Type}.
Variable distance : Descriptor → Descriptor → Q.
Hypothesis distance_nonneg : ∀ u v, (0 <= distance u v)%Q.

Lemma elem_of_distances (dA : Descriptor) (B : DescriptorSet) (e : nat * Q) :
  e ∈ distances distance dA B ↔ ∃ b, B !! e.1 = Some b ∧ e.2 = distance dA b.2.
Proof.
  unfold distances. rewrite elem_of_lookup_imap. split.
  - intros (j & b & -> & Hb). by exists b.
  - intros (b & Hb & He). exists e.1, b. split; [|done].
    destruct e as [j d]. simpl in *. by subst.
Qed.

(** What [two_nearest] returns: a nearest neighbour and a nearest one among
    the other indices. *)
Lemma two_nearest_spec (dA : Descriptor) (B : DescriptorSet) (j1 j2 : nat) (d1 d2 : Q) :
  two_nearest distance dA B = Some ((j1, d1), (j2, d2)) →
  ∃ b1 b2,
    j1 ≠ j2 ∧ B !! j1 = Some b1 ∧ B !! j2 = Some b2
    ∧ d1 = distance dA b1.2 ∧ d2 = distance dA b2.2
    ∧ (∀ j b, B !! j = Some b → (d1 <= distance dA b.2)%Q)
    ∧ (∀ j b, j ≠ j1 → B !! j = Some b → (d2 <= distance dA b.2)%Q).
Proof.
  unfold two_nearest. intros Htwo.
  destruct (nearest (distances distance dA B)) as [best|] eqn:Hbest; [|done].
  simpl in Htwo.
  destruct (nearest (filter _ _)) as [second|] eqn:Hsecond; [|done].
  simpl in Htwo. injection Htwo as -> ->.
  apply nearest_spec in Hbest as [Hin1 Hmin1].
  apply nearest_spec in Hsecond as [Hin2 Hmin2].
  apply list_elem_of_filter in Hin2 as [Hne Hin2]. simpl in Hne.
  apply elem_of_distances in Hin1 as (b1 & Hb1 & Hd1).
  apply elem_of_distances in Hin2 as (b2 & Hb2 & Hd2).
  simpl in *. exists b1, b2. split_and!; try done.
  - intros j b Hb. apply (Hmin1 (j, distance dA b.2)).
    apply elem_of_distances. by exists b.
  - intros j b Hj Hb. apply (Hmin2 (j, distance dA b.2)).
    apply list_elem_of_filter. split; [done |].
    apply elem_of_distances. by exists b.
Qed.

Lemma two_nearest_is_Some (dA : Descriptor) (B : DescriptorSet) (j j' : nat)
    (b b' : Keypoint * Descriptor) :
  j ≠ j' → B !! j = Some b → B !! j' = Some b' →
  is_Some (two_nearest distance dA B).
Proof.
  intros Hne Hb Hb'. unfold two_nearest.
  destruct (nearest_is_Some (distances distance dA B) (j, distance dA b.2))
    as [[j1 d1] Hbest].
  { apply elem_of_distances. by exists b. }
  rewrite Hbest. simpl.
  assert (∃ k c, k ≠ j1 ∧ B !! k = Some c) as (k & c & Hk & Hc).
  { destruct (decide (j = j1)) as [->|]; [by exists j', b' | by exists j, b]. }
  destruct (nearest_is_Some
    (filter (λ e : nat * Q, e.1 ≠ j1) (distances distance dA B)) (k, distance dA c.2))
    as [second Hsecond].
  { apply list_elem_of_filter. split; [done |]. apply elem_of_distances. by exists c. }
  rewrite Hsecond. by eexists.
Qed.

Lemma match_loop_omap (A B : DescriptorSet) (ratio : Q) (found : list CandidateMatch) :
  match_loop distance A B ratio found = found ++ omap (candidate distance B ratio) A.
Proof.
  revert found. induction A as [|a A IH]; intros found; simpl.
  - by rewrite app_nil_r.
  - rewrite IH. destruct (candidate distance B ratio a) as [c|]; [|done].
    by rewrite <- app_assoc.
Qed.

(** An accepted descriptor passes the test of section 4.1. *)
Lemma candidate_accepts (B : DescriptorSet) (ratio : Q) (a : Keypoint * Descriptor)
    (c : CandidateMatch) :
  candidate distance B ratio a = Some c →
  ∃ j1 b1, accepts distance B ratio a j1 b1 ∧ pointA c = a.1 ∧ pointB c = b1.1.
Proof.
  unfold candidate. intros Hc.
  destruct (two_nearest distance a.2 B) as [[[j1 d1] [j2 d2]]|] eqn:Htwo; [|done].
  simpl in Hc.
  destruct (two_nearest_spec _ _ _ _ _ _ Htwo)
    as (b1 & b2 & Hne & Hb1 & Hb2 & -> & -> & Hmin1 & Hmin2).
  rewrite Hb1 in Hc. simpl in Hc.
  destruct (decide _) as [Hlt|]; [|done]. injection Hc as <-.
  exists j1, b1. split; [|done]. by exists j2, b2.
Qed.

(** A descriptor that passes the test is accepted, with that neighbour. *)
Lemma accepts_candidate (B : DescriptorSet) (ratio : Q) (a : Keypoint * Descriptor)
    (j1 : nat) (b1 : Keypoint * Descriptor) :
  (0 < ratio)%Q → (ratio < 1)%Q →
  accepts distance B ratio a j1 b1 →
  ∃ c, candidate distance B ratio a = Some c ∧ pointA c = a.1 ∧ pointB c = b1.1.
Proof.
  intros Hr0 Hr1 (j2 & b2 & Hne & Hb1 & Hb2 & Hmin1 & Hmin2 & Hlt).
  destruct (two_nearest_is_Some a.2 B j1 j2 b1 b2 Hne Hb1 Hb2)
    as [[[k1 d1] [k2 d2]] Htwo].
  destruct (two_nearest_spec _ _ _ _ _ _ Htwo)
    as (c1 & c2 & Hkne & Hc1 & Hc2 & -> & -> & Hkmin1 & Hkmin2).
  pose proof (distance_nonneg a.2 b2.2) as Hpos.
  assert (k1 = j1) as ->.
  { destruct (decide (k1 = j1)) as [|Hk]; [done | exfalso].
    pose proof (Hmin2 k1 c1 Hk Hc1). pose proof (Hkmin1 j1 b1 Hb1).
    assert (ratio * distance a.2 b2.2 <= 1 * distance a.2 b2.2)%Q
      by (apply Qmult_le_compat_r; [by apply Qlt_le_weak | done]).
    lra. }
  assert (c1 = b1) as -> by congruence.
  unfold candidate. rewrite Htwo. simpl. rewrite Hb1. simpl.
  rewrite decide_True; [by eexists |].
  pose proof (Hmin2 k2 c2 ltac:(by apply not_eq_sym) Hc2).
  assert (ratio * distance a.2 b2.2 <= ratio * distance a.2 c2.2)%Q.
  { rewrite !(Qmult_comm ratio). apply Qmult_le_compat_r; [done | by apply Qlt_le_weak]. }
  lra.
Qed.

(** A larger ratio keeps every accepted descriptor. *)
Lemma candidate_monotone (B : DescriptorSet) (r1 r2 : Q) (a : Keypoint * Descriptor) :
  (r1 <= r2)%Q →
  is_Some (candidate distance B r1 a) → is_Some (candidate distance B r2 a).
Proof.
  intros Hr. unfold candidate.
  destruct (two_nearest distance a.2 B) as [[[j1 d1] [j2 d2]]|] eqn:Htwo;
    [|by intros [? [=]]].
  destruct (two_nearest_spec _ _ _ _ _ _ Htwo)
    as (b1 & b2 & _ & Hb1 & _ & -> & -> & _ & _).
  simpl. rewrite Hb1. simpl.
  destruct (decide (_ < r1 * _)%Q) as [Hlt|]; [|by intros [? [=]]].
  intros _. rewrite decide_True; [by eexists |].
  pose proof (distance_nonneg a.2 b2.2).
  assert (r1 * distance a.2 b2.2 <= r2 * distance a.2 b2.2)%Q
    by (by apply Qmult_le_compat_r).
  lra.
Qed.

Lemma omap_length_le {X Y} (f g : X → option Y) (l : list X) :
  (∀ x, is_Some (f x) → is_Some (g x)) →
  (length (omap f l) ≤ length (omap g l))%nat.
Proof.
  intros Hfg. induction l as [|x l IH]; [done |].
  cbn [omap list_omap]. specialize (Hfg x).
  destruct (f x) as [y|], (g x) as [z|]; cbn [length]; try lia.
  destruct Hfg as [? [=]]. by eexists.
Qed.

End CandidateMatcher_facts.

Lemma popcount_nonneg (byte : Z) : 0 ≤ popcount byte.
Proof.
  unfold popcount. generalize [0; 1; 2; 3; 4; 5; 6; 7]. intros ks.
  induction ks as [|k ks IH]; [done |].
  rewrite fmap_cons. cbn [foldr]. destruct (Z.testbit byte k); simpl Z.b2z; lia.
Qed.

Lemma hamming_nonneg (u v : list Z) : (0 <= hamming u v)%Q.
Proof.
  unfold hamming. change 0%Q with (inject_Z 0). rewrite <- Zle_Qle.
  revert v. induction u as [|x u IH]; intros [|y v]; simpl; try lia.
  pose proof (popcount_nonneg (Z.lxor x y)). specialize (IH v). lia.
Qed.

Lemma euclidean_nonneg (u v : list Q) : (0 <= euclidean u v)%Q.
Proof.
  unfold euclidean.
  revert v. induction u as [|x u IH]; intros [|y v]; simpl; try apply Qle_refl.
  specialize (IH v).
  assert (0 <= (x - y) * (x - y))%Q as Hsq.
  { destruct (Qlt_le_dec (x - y) 0) as [Hneg|Hpos].
    - assert ((x - y) * (x - y) == (- (x - y)) * (- (x - y)))%Q as -> by ring.
      apply Qmult_le_0_compat; lra.
    - by apply Qmult_le_0_compat. }
  lra.
Qed.

(** * The claims of the specification *)

Lemma pixel_pair_of_rounded `{Library} (ps : list (Point2f * Point2f)) :
  conforming_cast →
  Forall (λ pq, fits_int pq.1 ∧ fits_int pq.2) ps →
  pixel_pair_of <$> ps = rounded_pair <$> ps.
Proof.
  intros Hcast Hfit. induction Hfit as [|[p q] ps [[Hpx Hpy] [Hqx Hqy]] _ IH]; [done |].
  rewrite !fmap_cons, IH. f_equal.
  unfold pixel_pair_of, pixel_of, rounded_pair, rounded_pixel, round_coord.
  simpl in *. by rewrite !Hcast.
Qed.

(** C1 (spec-modelled). For descriptor sets A and B and a ratio in (0,1),
    the candidate list holds, in the order of A, exactly one candidate for
    each accepted descriptor of A and none for the others; a descriptor is
    accepted with neighbour [b1] exactly when [b1] is its nearest neighbour,
    some [b2] at another index is nearest among the rest, and
    [d1 < ratio * d2]. *)
Theorem nndr_candidates {Descriptor : Type} (distance : Descriptor → Descriptor → Q)
    (A B : DescriptorSet) (ratio : Q) :
  (∀ u v, (0 <= distance u v)%Q) →
  (0 < ratio)%Q → (ratio < 1)%Q →
  match_ distance A B ratio = omap (candidate distance B ratio) A
  ∧ ∀ a : Keypoint * Descriptor,
      (∀ c, candidate distance B ratio a = Some c →
         ∃ j1 b1, accepts distance B ratio a j1 b1
                  ∧ pointA c = a.1 ∧ pointB c = b1.1)
      ∧ (∀ j1 b1, accepts distance B ratio a j1 b1 →
           ∃ c, candidate distance B ratio a = Some c
                ∧ pointA c = a.1 ∧ pointB c = b1.1).
Proof.
  intros Hpos Hr0 Hr1. split.
  - unfold match_. by rewrite match_loop_omap.
  - intros a. split.
    + intros c. apply candidate_accepts.
    + intros j1 b1. by apply accepts_candidate.
Qed.

Lemma nndr_candidates_witness :
  match_ hamming sample_A sample_B (4 # 5)
  = omap (candidate hamming sample_B (4 # 5)) sample_A.
Proof.
  exact (proj1 (nndr_candidates hamming sample_A sample_B (4 # 5)
                  hamming_nonneg eq_refl eq_refl)).
Defined.

(** C6 (spec-modelled). For fixed descriptor sets, a ratio [r1 <= r2]
    accepts no more candidates than [r2]. *)
Theorem nndr_monotone {Descriptor : Type} (distance : Descriptor → Descriptor → Q)
    (A B : DescriptorSet) (r1 r2 : Q) :
  (∀ u v, (0 <= distance u v)%Q) →
  (r1 <= r2)%Q →
  (length (match_ distance A B r1) ≤ length (match_ distance A B r2))%nat.
Proof.
  intros Hpos Hr. unfold match_. rewrite !match_loop_omap. simpl.
  apply omap_length_le. intros a. by apply candidate_monotone.
Qed.

Lemma nndr_monotone_witness :
  (length (match_ hamming sample_A sample_B (1 # 5))
   ≤ length (match_ hamming sample_A sample_B (4 # 5)))%nat.
Proof.
  apply (nndr_monotone hamming sample_A sample_B (1 # 5) (4 # 5) hamming_nonneg).
  unfold Qle. simpl. lia.
Defined.

(** C2. For a list of inlier pairs whose rounded coordinates fit an [int],
    [save_inliers] writes a file that parses as an object with a "points"
    array of one record per pair, each with a pattern_point and an
    image_point; the coordinates read back are the keypoint coordinates plus
    one half, truncated toward zero, which is the nearest integer for a
    coordinate that is not negative. *)
Theorem save_inliers_round_trip `{Library} (outFile : string)
    (ps : list (Point2f * Point2f)) (w : World) :
  conforming_cast →
  can_open w outFile = true →
  Forall (λ pq, fits_int pq.1 ∧ fits_int pq.2) ps →
  ∃ w' content,
    save_inliers outFile (flatten_pairs ps) w = Returns (0, w')
    ∧ files w' !! outFile = Some content
    ∧ parse_json content = Some (inliers_json (rounded_pair <$> ps))
    ∧ load_inliers content = Some (rounded_pair <$> ps)
    ∧ ∀ c : Q, (0 <= c)%Q →
        (c - (1 # 2) < inject_Z (Qtrunc (c + (1 # 2))) <= c + (1 # 2))%Q.
Proof.
  intros Hcast Hopen Hfit.
  exists (write_file outFile (inliers_text (pixel_pair_of <$> ps)) w),
    (inliers_text (pixel_pair_of <$> ps)).
  split_and!.
  - by apply save_inliers_pairs.
  - simpl. apply lookup_insert_eq.
  - rewrite parse_json_inliers_text. by rewrite pixel_pair_of_rounded.
  - rewrite load_inliers_text. by rewrite pixel_pair_of_rounded.
  - apply Qtrunc_half_nearest.
Qed.

Lemma sample_fits :
  Forall (λ pq : Point2f * Point2f, fits_int pq.1 ∧ fits_int pq.2)
    [({| pt_x := 62 # 5; pt_y := 67 # 2 |}, {| pt_x := 15; pt_y := - (37 # 10) |})].
Proof.
  repeat constructor; unfold representable; vm_compute; congruence.
Qed.

Lemma save_inliers_round_trip_witness :
  ∃ w' content,
    save_inliers (H := sample_library) "inliers.json"
      (flatten_pairs
         [({| pt_x := 62 # 5; pt_y := 67 # 2 |}, {| pt_x := 15; pt_y := - (37 # 10) |})])
      sample_world = Returns (0, w')
    ∧ files w' !! "inliers.json" = Some content
    ∧ load_inliers content = Some [((12, 34), (15, -3))].
Proof.
  destruct (save_inliers_round_trip (H := sample_library) "inliers.json"
    [({| pt_x := 62 # 5; pt_y := 67 # 2 |}, {| pt_x := 15; pt_y := - (37 # 10) |})]
    sample_world saturating_cast_conforming eq_refl sample_fits)
    as (w' & content & Hsave & Hfile & _ & Hload & _).
  exists w', content. split_and!; [exact Hsave | exact Hfile | exact Hload].
Defined.

(** C8. [save_inliers] steps through its vector two elements at a time and
    reads elements [i] and [i+1]: on a vector of even length every read is
    inside the vector and the function returns, on a vector of odd length the
    last pass reads the element one past the end. *)
Theorem save_inliers_stride `{Library} (outFile : string) (ptpairs : list Point2f)
    (w : World) :
  can_open w outFile = true →
  (Nat.Even (length ptpairs) → ∃ w', save_inliers outFile ptpairs w = Returns (0, w'))
  ∧ (Nat.Odd (length ptpairs) →
       save_inliers outFile ptpairs w = Undefined (length ptpairs)).
Proof.
  intros Hopen. destruct (vector_as_pairs ptpairs) as [Heven Hodd]. split.
  - intros [ps ->]%Heven. eexists. by apply save_inliers_pairs.
  - intros (ps & p & ->)%Hodd. by apply save_inliers_left_over.
Qed.

Lemma save_inliers_stride_witness :
  (∃ w', save_inliers (H := sample_library) "inliers.json"
           [at_pixel 1 2; at_pixel 3 4] sample_world = Returns (0, w'))
  ∧ save_inliers (H := sample_library) "inliers.json"
      [at_pixel 1 2; at_pixel 3 4; at_pixel 5 6] sample_world = Undefined 3.
Proof.
  split.
  - apply (save_inliers_stride (H := sample_library) "inliers.json"
      [at_pixel 1 2; at_pixel 3 4] sample_world eq_refl).
    exists 1%nat. reflexivity.
  - apply (save_inliers_stride (H := sample_library) "inliers.json"
      [at_pixel 1 2; at_pixel 3 4; at_pixel 5 6] sample_world eq_refl).
    exists 1%nat. reflexivity.
Defined.

(** C9. With at least two arguments and [argv[1]] other than "--help",
    [parse_input_options] uses [argv[2]]: with exactly two arguments that is
    the element at index [argc], past the arguments supplied; with more it
    becomes the second image path. *)
Theorem parse_input_options_argv2 `{Library} (a : Args) (argv : list string) (w : World) :
  (2 ≤ length argv)%nat →
  argv !! 1%nat ≠ Some "--help" →
  (length argv = 2%nat → parse_input_options a argv w = Undefined (length argv))
  ∧ (∀ arg2, argv !! 2%nat = Some arg2 →
       ∃ ret a' w', parse_input_options a argv w = Returns (ret, a', w')
                    ∧ img_path2 a' = arg2).
Proof.
  intros Hargc Hhelp.
  destruct (parse_input_options_cases a argv w)
    as [(a1 & w1 & _ & _ & [Hlen|Hh])
       |[(Hp & Hlen & _)
        |(arg1 & arg2 & a0 & _ & _ & Harg2 & _ & Hpath2 & _ & Hp)]];
    [lia | done | |].
  - split; [intros _; by rewrite Hlen | ].
    intros arg2 Harg2. apply lookup_lt_Some in Harg2. lia.
  - split; [intros Hlen; apply lookup_lt_Some in Harg2; lia |].
    intros arg2' Harg2'. rewrite Harg2 in Harg2'. injection Harg2' as <-.
    destruct (option_loop_returns (length argv) argv 3 a0 w)
      as (ret & a' & w' & Hloop & _ & Hsame & _).
    { apply lookup_lt_Some in Harg2. lia. }
    exists ret, a', w'. split; congruence.
Qed.

Lemma parse_input_options_argv2_witness :
  parse_input_options (H := sample_library) (initial_args (H := sample_library)) ["akaze_inliers"; "a.png"]
    sample_world = Undefined 2.
Proof.
  apply (parse_input_options_argv2 (H := sample_library) (initial_args (H := sample_library))
    ["akaze_inliers"; "a.png"] sample_world); [simpl; lia | discriminate | reflexivity].
Defined.

(** C10, as worded, fails: an "--output" that is used up as the value of
    the option before it is no option.  On the command line below the last
    "--output" with an argument after it is [argv[6]], followed by
    "last.json", yet the accepted path is "first.json". *)
Lemma inliers_path_not_last_output_text :
  ∃ a' w',
    parse_input_options (H := sample_library) (initial_args (H := sample_library))
      ["akaze_inliers"; "a.png"; "b.png"; "--output"; "first.json"; "--omax";
       "--output"; "last.json"] sample_world = Returns (0, a', w')
    ∧ ["akaze_inliers"; "a.png"; "b.png"; "--output"; "first.json"; "--omax";
       "--output"; "last.json"] !! 6%nat = Some "--output"
    ∧ ["akaze_inliers"; "a.png"; "b.png"; "--output"; "first.json"; "--omax";
       "--output"; "last.json"] !! 7%nat = Some "last.json"
    ∧ (∀ j v,
         ["akaze_inliers"; "a.png"; "b.png"; "--output"; "first.json"; "--omax";
          "--output"; "last.json"] !! j = Some "--output" →
         ["akaze_inliers"; "a.png"; "b.png"; "--output"; "first.json"; "--omax";
          "--output"; "last.json"] !! (j + 1)%nat = Some v →
         (j ≤ 6)%nat)
    ∧ inliers_path a' = "first.json"
    ∧ inliers_path a' ≠ "last.json".
Proof.
  eexists _, _. split_and!; [reflexivity | reflexivity | reflexivity | | reflexivity | done].
  intros j v _ Hv. apply lookup_lt_Some in Hv. simpl in Hv. lia.
Qed.

(** C10, amended. When [parse_input_options] accepts the command line, the
    inlier path is the value after the last "--output" that stands at an
    option position (from [argv[3]] on and not used up as the value of the
    option before it), and "./inliers.json" when no "--output" stands at an
    option position. *)
Theorem inliers_path_last_output `{Library} (a : Args) (argv : list string) (w : World)
    (a' : Args) (w' : World) :
  parse_input_options a argv w = Returns (0, a', w') →
  (∀ i v, output_option argv i v →
     (∀ j v', output_option argv j v' → (j ≤ i)%nat) → inliers_path a' = v)
  ∧ ((∀ i v, ¬ output_option argv i v) → inliers_path a' = "./inliers.json").
Proof.
  intros Hparse.
  destruct (parse_input_options_cases a argv w)
    as [(a1 & w1 & Hp & _)
       |[(Hp & _)
        |(arg1 & arg2 & a0 & _ & _ & _ & _ & _ & Hdefault & Hp)]];
    [by rewrite Hp in Hparse.. |].
  rewrite Hp in Hparse.
  assert (path_before argv 3 (inliers_path a0)) as Hstart.
  { right. split; [|done]. intros j v Hj (Hat & _). apply option_at_ge in Hat. lia. }
  pose proof (option_loop_path _ _ _ _ _ _ _ (option_at_first argv) Hstart Hparse)
    as [(j & v & _ & Hout & Hlast & ->)|[Hnone ->]].
  - split.
    + intros i v' Hi Hmax.
      pose proof (Hmax j v Hout). pose proof (output_option_bound _ _ _ Hi).
      pose proof (Hlast i v' ltac:(lia) Hi).
      assert (i = j) as -> by lia.
      destruct Hi as (_ & _ & Hv'), Hout as (_ & _ & Hv). congruence.
    + intros Hno. by destruct (Hno j v).
  - split; [|done].
    intros i v Hi _. pose proof (output_option_bound _ _ _ Hi).
    destruct (Hnone i v); [lia | done].
Qed.

Lemma inliers_path_last_output_witness :
  ∃ a' w',
    parse_input_options (H := sample_library) (initial_args (H := sample_library))
      ["akaze_inliers"; "a.png"; "b.png"; "--output"; "first.json"; "--verbose";
       "--output"; "last.json"] sample_world = Returns (0, a', w')
    ∧ inliers_path a' = "last.json".
Proof.
  eexists _, _. split; [reflexivity |].
  refine (proj1 (inliers_path_last_output (H := sample_library) (initial_args (H := sample_library))
    ["akaze_inliers"; "a.png"; "b.png"; "--output"; "first.json"; "--verbose";
     "--output"; "last.json"] sample_world _ _ eq_refl) 6%nat "last.json" _ _).
  - split_and!; [|done..].
    apply (option_at_after_plain _ 5 "--verbose"); [|done..].
    apply (option_at_after_value _ 3 "--output"); [|done..].
    apply option_at_first.
  - intros j v' Hj. apply output_option_bound in Hj. simpl in Hj. lia.
Defined.

(** Everything a run of [main] adds to the log is console text or a call of
    the matching stage with the built-in options. *)
Lemma main_log `{Library} (argv : list string) (w : World) (ret : Z) (w' : World) :
  main argv w = Returns (ret, w') →
  ∃ l, log w' = log w ++ l
       ∧ ∀ e, e ∈ l → console_event e ∨ ∃ m, e ∈ matching_stage m.
Proof.
  intros [[_ (_ & _ & l & Hl & Hall)]
         |[_ (a & w1 & tail & _ & (_ & _ & l & Hl & Hall) & Hlog & Htail)]]%main_returns.
  - exists l. split; [done |]. intros e He. left.
    by apply (proj1 (Forall_forall _ _) Hall).
  - exists (l ++ matching_stage (select_matcher (options a)) ++ tail).
    split; [by rewrite Hlog, Hl, <- app_assoc |].
    intros e [He|[He|He]%elem_of_app]%elem_of_app.
    + left. by apply (proj1 (Forall_forall _ _) Hall).
    + right. by eexists.
    + left. by apply (proj1 (Forall_forall _ _) Htail).
Qed.

Lemma matching_stage_nndr (m : Matcher) (r : Q) :
  Matches2PointsNndr r ∈ matching_stage m → r = DRATIO.
Proof.
  unfold matching_stage. rewrite !elem_of_cons, elem_of_nil.
  intros [[=]|[[=]|[[=]|[]]]]. done.
Qed.

Lemma matching_stage_ransac (m : Matcher) (err : Q) (flag : bool) :
  ComputeInliersRansac err flag ∈ matching_stage m → err = MIN_H_ERROR ∧ flag = false.
Proof.
  unfold matching_stage. rewrite !elem_of_cons, elem_of_nil.
  intros [[=]|[[=]|[[=]|[]]]]. done.
Qed.

(** C3, as stated, fails: no command line changes the ratio, the threshold
    or the flag the driver passes on. *)
Lemma matching_options_not_configurable :
  ¬ ∃ L : Library, @configured_at_run_time L.
Proof.
  intros (L & argv & w & ret & w' & l & Hmain & Hlog & Hother).
  destruct (main_log argv w ret w' Hmain) as (l' & Hlog' & Hall).
  rewrite Hlog in Hlog'. apply app_inv_head in Hlog' as <-.
  destruct Hother as [(r & Hin & Hne)|(err & flag & Hin & Hne)].
  - destruct (Hall _ Hin) as [[]|[m Hm]]. by apply matching_stage_nndr in Hm.
  - destruct (Hall _ Hin) as [[]|[m Hm]].
    apply matching_stage_ransac in Hm as [-> ->]. by destruct Hne.
Qed.

(** C3, amended. Whatever the command line, the driver matches with the
    built-in ratio DRATIO, the single-precision number nearest to 0.80, and
    estimates with the built-in threshold MIN_H_ERROR = 2.50 and the constant
    flag false. *)
Theorem matching_options_constant `{Library} (argv : list string) (w : World)
    (ret : Z) (w' : World) :
  main argv w = Returns (ret, w') →
  ∃ l, log w' = log w ++ l
       ∧ (∀ r, Matches2PointsNndr r ∈ l → r = DRATIO)
       ∧ (∀ err flag, ComputeInliersRansac err flag ∈ l →
            err = MIN_H_ERROR ∧ flag = false)
       ∧ (4 # 5 <= DRATIO <= (4 # 5) + (1 # 33554432))%Q
       ∧ (MIN_H_ERROR == 5 # 2)%Q.
Proof.
  intros (l & Hlog & Hall)%main_log. exists l.
  split_and!; [done | | | unfold DRATIO; lra | unfold DRATIO; lra | done].
  - intros r Hin. destruct (Hall _ Hin) as [[]|[m Hm]]. by eapply matching_stage_nndr.
  - intros err flag Hin. destruct (Hall _ Hin) as [[]|[m Hm]].
    by eapply matching_stage_ransac.
Qed.

Lemma matching_options_constant_witness :
  ∃ w' l,
    main (H := sample_library)
      ["akaze_inliers"; "a.png"; "b.png"; "--dratio"; "0.5"] sample_world
      = Returns (0, w')
    ∧ log w' = log sample_world ++ l
    ∧ (∀ r, Matches2PointsNndr r ∈ l → r = DRATIO).
Proof.
  eexists _.
  destruct (matching_options_constant (H := sample_library)
    ["akaze_inliers"; "a.png"; "b.png"; "--dratio"; "0.5"] sample_world _ _ eq_refl)
    as (l & Hlog & Hnndr & _).
  exists l. split_and!; [reflexivity | exact Hlog | exact Hnndr].
Defined.

(** C4. A run that reaches the matching stage applies exactly one matcher:
    the L2 brute-force matcher when the descriptor type is below
    MLDB_UPRIGHT, the Hamming matcher otherwise. *)
Theorem matcher_selection `{Library} (argv : list string) (w w' : World) :
  main argv w = Returns (0, w') →
  ∃ a w1 l,
    parse_input_options initial_args argv w = Returns (0, a, w1)
    ∧ log w' = log w ++ l
    ∧ matcher_calls l = [select_matcher (options a)]
    ∧ (select_matcher (options a) = BruteForce ↔ descriptor (options a) < MLDB_UPRIGHT)
    ∧ (select_matcher (options a) = BruteForceHamming
       ↔ ¬ descriptor (options a) < MLDB_UPRIGHT).
Proof.
  intros [[[=] _]
         |[_ (a & w1 & tail & Hparse & (_ & _ & l & Hl & Hall) & Hlog & Htail)]]%main_returns.
  exists a, w1, (l ++ matching_stage (select_matcher (options a)) ++ tail).
  split_and!; [done | by rewrite Hlog, Hl, <- app_assoc | | |].
  - unfold matcher_calls. rewrite !omap_app.
    fold (matcher_calls l) (matcher_calls tail).
    rewrite (matcher_calls_console l), (matcher_calls_console tail) by done.
    reflexivity.
  - unfold select_matcher. by destruct (decide _).
  - unfold select_matcher. by destruct (decide _).
Qed.

Lemma matcher_selection_witness :
  ∃ w' l,
    main (H := sample_library)
      ["akaze_inliers"; "a.png"; "b.png"; "--descriptor"; "3"] sample_world
      = Returns (0, w')
    ∧ log w' = log sample_world ++ l
    ∧ matcher_calls l = [BruteForce].
Proof.
  eexists _.
  destruct (matcher_selection (H := sample_library)
    ["akaze_inliers"; "a.png"; "b.png"; "--descriptor"; "3"] sample_world _ eq_refl)
    as (a & w1 & l & Hparse & Hlog & Hcalls & _).
  exists l. split_and!; [reflexivity | exact Hlog |].
  injection Hparse as <- _. exact Hcalls.
Defined.

(** C5. When the output file cannot be opened, [save_inliers] reports it on
    std::cerr and returns -1 without writing any file, and [main], which
    called it last, still ends normally with the files as they were. *)
Theorem open_failure_reported `{Library} (outFile : string) (ptpairs : list Point2f)
    (w : World) :
  can_open w outFile = false →
  (∃ w', save_inliers outFile ptpairs w = Returns (-1, w')
         ∧ files w' = files w
         ∧ log w' = log w ++ [Cerr (open_error outFile)])
  ∧ (∀ argv w0 a img1 img2,
       parse_input_options initial_args argv w0 = Returns (0, a, w) →
       inliers_path a = outFile →
       imread w (img_path1 a) = Some img1 →
       imread w (img_path2 a) = Some img2 →
       ∃ w', main argv w0 = Returns (0, w')
             ∧ files w' = files w0
             ∧ last (log w') = Some (Cerr (open_error outFile))).
Proof.
  intros Hopen. split.
  - unfold save_inliers. rewrite Hopen. by eexists.
  - intros argv w0 a img1 img2 Hparse Hpath Himg1 Himg2.
    pose proof (parse_input_options_console _ _ _ _ _ _ Hparse) as (Hfiles & _).
    unfold main. rewrite Hparse, bind_Returns.
    rewrite decide_False by lia. rewrite Himg1, Himg2.
    destruct (akaze_features _ img1) as [kpts1 desc1].
    destruct (akaze_features _ img2) as [kpts2 desc2].
    unfold save_inliers. cbn [can_open emit]. rewrite Hpath, Hopen, bind_Returns.
    eexists. split_and!; [done | done |].
    cbn [log emit]. by rewrite last_snoc.
Qed.

Lemma open_failure_reported_witness :
  (∃ w', save_inliers (H := sample_library) "/readonly/inliers.json"
           [at_pixel 1 2; at_pixel 3 4] sample_world = Returns (-1, w')
         ∧ files w' = files sample_world)
  ∧ ∃ w', main (H := sample_library)
            ["akaze_inliers"; "a.png"; "b.png"; "--output"; "/readonly/inliers.json"]
            sample_world = Returns (0, w')
          ∧ files w' = files sample_world.
Proof.
  destruct (open_failure_reported (H := sample_library) "/readonly/inliers.json"
    [at_pixel 1 2; at_pixel 3 4] sample_world eq_refl) as [Hsave Hmain].
  split.
  - destruct Hsave as (w' & Hret & Hfiles & _). by exists w'.
  - destruct (Hmain
      ["akaze_inliers"; "a.png"; "b.png"; "--output"; "/readonly/inliers.json"]
      sample_world _ () () eq_refl eq_refl eq_refl eq_refl)
      as (w' & Hret & Hfiles & _).
    by exists w'.
Defined.

(** * Further properties of the driver *)

(** ** More on parse_input_options *)

Lemma last_emit (e : Event) (w : World) : last (log (emit e w)) = Some e.
Proof. simpl. apply last_snoc. Qed.

Section parse_more.
Context `{Library}.

(** From an option position, with no value missing before it, the loop
    returns 0 when no value is missing at all, and otherwise -1 after the
    error message. *)
Lemma option_loop_accepts (fuel : nat) (argv : list string) (i : nat) (a : Args)
    (w : World) :
  option_at argv i →
  (length argv - i < fuel)%nat →
  (∀ j arg, (j < i)%nat → option_at argv j → argv !! j = Some arg →
     takes_value arg = true → (j + 1 < length argv)%nat) →
  ∃ ret a' w',
    option_loop fuel argv i a w = Returns (ret, a', w')
    ∧ ((ret = 0 ∧ ¬ missing_value argv)
       ∨ (ret = -1 ∧ missing_value argv ∧ last (log w') = Some (Cerr input_error))).
Proof.
  revert i a w. induction fuel as [|fuel IH]; intros i a w Hat Hfuel Hbefore; [lia |].
  simpl. destruct (decide (i < length argv)%nat) as [Hi|Hi].
  - destruct (option_pass_outcome argv i a w Hi)
      as [arg Harg Htakes Hlen|arg v a1 Harg Htakes Hv _ _ _ _
         |arg a1 w1 Harg Htakes _ _ _ _];
      rewrite bind_Returns.
    + eexists _, _, _. split; [done |]. right. split_and!; [done | | apply last_emit].
      by exists i, arg.
    + apply IH; [| lia |].
      * replace (i + 1 + 1)%nat with (i + 2)%nat by lia.
        by eapply option_at_after_value.
      * intros j argj Hj Hatj Hargj Htj.
        destruct (decide (j < i)%nat) as [|Hge]; [by eapply Hbefore |].
        destruct (decide (j = i)) as [->|Hne].
        { apply lookup_lt_Some in Hv. lia. }
        pose proof (option_at_next argv j i arg Hatj Hat Harg ltac:(lia)) as Hnext.
        unfold next_option in Hnext. rewrite Htakes in Hnext. lia.
    + apply IH; [by eapply option_at_after_plain | lia |].
      intros j argj Hj Hatj Hargj Htj.
      destruct (decide (j < i)%nat) as [|Hge]; [by eapply Hbefore |].
      assert (j = i) as -> by lia. congruence.
  - eexists _, _, _. split; [done |]. left. split; [done |].
    intros (j & arg & Hatj & Hargj & Htj & Hlen).
    pose proof (lookup_lt_Some _ _ _ Hargj).
    pose proof (Hbefore j arg ltac:(lia) Hatj Hargj Htj). lia.
Qed.

End parse_more.

(** X1. A command line with both image paths is accepted (0) exactly when
    no option that takes a value stands, at an option position, as the last
    argument; otherwise the result is -1 and the last thing on the console is
    the error message.  A last argument that is the value of the option
    before it does not count, whatever its text. *)
Theorem parse_input_options_accepts `{Library} (a : Args) (argv : list string)
    (w : World) :
  (3 ≤ length argv)%nat →
  argv !! 1%nat ≠ Some "--help" →
  ∃ ret a' w',
    parse_input_options a argv w = Returns (ret, a', w')
    ∧ (ret = 0 ↔ ¬ missing_value argv)
    ∧ (ret = -1 ↔ missing_value argv)
    ∧ (ret = -1 → last (log w') = Some (Cerr input_error)).
Proof.
  intros Hargc Hhelp.
  destruct (parse_input_options_cases a argv w)
    as [(a1 & w1 & _ & _ & [Hlen|Hh])
       |[(_ & Hlen & _)
        |(arg1 & arg2 & a0 & _ & _ & _ & _ & _ & _ & ->)]];
    [lia | done | lia |].
  destruct (option_loop_accepts (length argv) argv 3 a0 w (option_at_first argv))
    as (ret & a' & w' & Hloop & Hret); [lia | |].
  { intros j arg Hj Hat. apply option_at_ge in Hat. lia. }
  exists ret, a', w'. split; [done |].
  destruct Hret as [[-> Hno]|(-> & Hmiss & Hlast)]; split_and!; try done; split; done.
Qed.

Lemma parse_input_options_accepts_witness :
  ∃ a' w',
    parse_input_options (H := sample_library) (initial_args (H := sample_library))
      ["akaze_inliers"; "a.png"; "b.png"; "--verbose"; "--omax"] sample_world
      = Returns (-1, a', w')
    ∧ missing_value ["akaze_inliers"; "a.png"; "b.png"; "--verbose"; "--omax"].
Proof.
  destruct (parse_input_options_accepts (H := sample_library)
    (initial_args (H := sample_library))
    ["akaze_inliers"; "a.png"; "b.png"; "--verbose"; "--omax"] sample_world)
    as (ret & a' & w' & Hparse & _ & Hmiss & _); [simpl; lia | discriminate |].
  assert (ret = -1) as -> by (by injection Hparse as <- _ _).
  exists a', w'. split; [exact Hparse | by apply Hmiss].
Defined.

(** X2. [parse_input_options] returns 0, or -1 with the help screen or the
    error message as the last thing on the console; the one run without a
    result is the one with exactly two arguments, stopped at [argv[2]]; the
    option loop never needs more passes than there are arguments. *)
Theorem parse_input_options_outcomes `{Library} (a : Args) (argv : list string)
    (w : World) :
  match parse_input_options a argv w with
  | Returns (ret, _, w') =>
    ret = 0
    ∨ (ret = -1 ∧ (last (log w') = Some InputOptionsHelp
                   ∨ last (log w') = Some (Cerr input_error)))
  | Undefined i => i = 2%nat ∧ length argv = 2%nat
  | OutOfFuel => False
  end.
Proof.
  unfold parse_input_options.
  destruct (decide (length argv = 1%nat)) as [Hone|Hone].
  { right. split; [done |]. left. apply last_emit. }
  destruct (decide (2 ≤ length argv)%nat) as [Htwo|Htwo].
  2:{ right. split; [done |]. left. apply last_emit. }
  destruct (lookup_lt_is_Some_2 argv 1%nat) as [arg1 Harg1]; [lia |].
  rewrite (at_index_Some _ _ _ Harg1), bind_Returns.
  destruct (String.eqb arg1 "--help").
  { right. split; [done |]. left. apply last_emit. }
  destruct (argv !! 2%nat) as [arg2|] eqn:Harg2.
  - rewrite (at_index_Some _ _ _ Harg2), bind_Returns.
    match goal with
    | |- context [option_loop _ _ _ ?a0 _] =>
      destruct (option_loop_accepts (length argv) argv 3 a0 w (option_at_first argv))
        as (ret & a' & w' & -> & Hret)
    end.
    { apply lookup_lt_Some in Harg2. lia. }
    { intros j arg Hj Hat. apply option_at_ge in Hat. lia. }
    destruct Hret as [[-> _]|(-> & _ & Hlast)]; [by left | right; split; [done | by right]].
  - rewrite (at_index_None _ _ Harg2), bind_Undefined.
    apply lookup_ge_None in Harg2. split; [done | lia].
Qed.

(** X3. [parse_input_options] only writes to the console: whatever it
    returns, the files and what can be opened are as before, and the log has
    grown by std::cerr text and help screens only. *)
Theorem parse_input_options_console_only `{Library} (a : Args) (argv : list string)
    (w : World) (ret : Z) (a' : Args) (w' : World) :
  parse_input_options a argv w = Returns (ret, a', w') →
  files w' = files w ∧ can_open w' = can_open w
  ∧ ∃ l, log w' = log w ++ l ∧ Forall console_event l.
Proof. apply parse_input_options_console. Qed.

Lemma parse_input_options_console_only_witness :
  ∃ a' w',
    parse_input_options (H := sample_library) (initial_args (H := sample_library))
      ["akaze_inliers"; "a.png"; "b.png"; "--fast"] sample_world = Returns (0, a', w')
    ∧ files w' = files sample_world
    ∧ log w' = [Cerr ("Unknown command --fast" +:+ endl)].
Proof.
  eexists _, _. split; [reflexivity |].
  split; [| reflexivity].
  exact (proj1 (parse_input_options_console_only (H := sample_library)
    (initial_args (H := sample_library))
    ["akaze_inliers"; "a.png"; "b.png"; "--fast"] sample_world _ _ _ eq_refl)).
Defined.

(** X4. With at least two arguments after the program name, the first two
    are the image paths in every return, accepted or not, whatever they look
    like. *)
Theorem parse_input_options_paths `{Library} (a : Args) (argv : list string) (w : World)
    (arg1 arg2 : string) (ret : Z) (a' : Args) (w' : World) :
  argv !! 1%nat = Some arg1 → arg1 ≠ "--help" → argv !! 2%nat = Some arg2 →
  parse_input_options a argv w = Returns (ret, a', w') →
  img_path1 a' = arg1 ∧ img_path2 a' = arg2.
Proof.
  intros Harg1 Hhelp Harg2 Hparse.
  destruct (parse_input_options_cases a argv w)
    as [(a1 & w1 & _ & _ & [Hlen|Hh])
       |[(Hp & _)
        |(arg1' & arg2' & a0 & Harg1' & _ & Harg2' & Hp1 & Hp2 & _ & Hp)]].
  - apply lookup_lt_Some in Harg2. lia.
  - congruence.
  - by rewrite Hp in Hparse.
  - rewrite Hp in Hparse.
    destruct (option_loop_returns (length argv) argv 3 a0 w)
      as (r & a2 & w2 & Hloop & Hs1 & Hs2 & _).
    { apply lookup_lt_Some in Harg2. lia. }
    rewrite Hloop in Hparse. injection Hparse as <- <- <-.
    split; congruence.
Qed.

Lemma parse_input_options_paths_witness :
  ∃ a' w',
    parse_input_options (H := sample_library) (initial_args (H := sample_library))
      ["akaze_inliers"; "--output"; "--verbose"; "--omax"] sample_world
      = Returns (-1, a', w')
    ∧ img_path1 a' = "--output" ∧ img_path2 a' = "--verbose".
Proof.
  eexists _, _. split; [reflexivity |].
  exact (parse_input_options_paths (H := sample_library)
    (initial_args (H := sample_library))
    ["akaze_inliers"; "--output"; "--verbose"; "--omax"] sample_world
    "--output" "--verbose" _ _ _ eq_refl ltac:(discriminate) eq_refl eq_refl).
Defined.

Section parse_settings.
Context `{Library}.

(** What one pass does to the checked settings and to the verbosity. *)
Lemma option_pass_settings (argv : list string) (i : nat) (a : Args) (w : World)
    (arg : string) :
  argv !! i = Some arg →
  0 ≤ MLDB →
  match option_pass argv i a w with
  | Returns (Continue _ a' _) =>
    (checked_options (options a) → checked_options (options a'))
    ∧ verbosity (options a') = verbosity (options a) || String.eqb arg "--verbose"
  | Returns (Return _ _ _) => True
  | _ => False
  end.
Proof.
  intros Harg HMLDB. unfold option_pass.
  rewrite (at_index_Some _ _ _ Harg), bind_Returns.
  repeat lazymatch goal with
  | |- context [String.eqb arg ?flag] =>
    destruct (String.eqb_spec arg flag) as [->|?];
      [unfold option_value;
       try (case_decide; [done |];
            destruct (lookup_lt_is_Some_2 argv (i + 1)%nat) as [v Hv]; [lia |];
            rewrite (at_index_Some _ _ _ Hv), bind_Returns);
       (split; [| by rewrite ?orb_false_r, ?orb_true_r]);
       unfold checked_options; simpl; intros (? & ? & ?);
       repeat case_decide; lia |]
  end.
  assert (String.eqb arg "--verbose" = false) as E by (by apply String.eqb_neq).
  rewrite ?E.
  destruct (String.prefix "--" arg); by rewrite orb_false_r.
Qed.

Lemma option_loop_settings (fuel : nat) (argv : list string) (i : nat) (a a' : Args)
    (w w' : World) (ret : Z) :
  0 ≤ MLDB →
  option_at argv i →
  option_loop fuel argv i a w = Returns (ret, a', w') →
  ret = 0 →
  (checked_options (options a) → checked_options (options a'))
  ∧ (verbosity (options a') = true
     ↔ verbosity (options a) = true
       ∨ ∃ j, (i ≤ j)%nat ∧ option_at argv j ∧ argv !! j = Some "--verbose").
Proof.
  intros HMLDB. revert i a w. induction fuel as [|fuel IH]; intros i a w Hat; [done |].
  simpl. destruct (decide (i < length argv)%nat) as [Hi|Hi].
  - destruct (lookup_lt_is_Some_2 argv i Hi) as [arg Harg].
    pose proof (option_pass_settings argv i a w arg Harg HMLDB) as Hset.
    pose proof (option_pass_outcome argv i a w Hi) as Hout.
    destruct (option_pass argv i a w) as [[i1 a1 w1|r1 a1 w1]| |]; [| |done..];
      rewrite bind_Returns.
    2:{ intros [= <- <- <-] ->.
        inversion Hout. }
    destruct Hset as [Hchecked Hverb].
    assert (option_at argv (i1 + 1) ∧ (i < i1 + 1)%nat
            ∧ ∀ j, option_at argv j → (i < j)%nat → (i1 + 1 ≤ j)%nat)
      as (Hat1 & Hlt & Hnext).
    { inversion Hout as [|arg' v ? Harg' Htakes|arg' ? ? Harg' Htakes]; subst;
        rewrite Harg in Harg'; injection Harg' as <-.
      - split_and!; [| lia |].
        + replace (i + 1 + 1)%nat with (i + 2)%nat by lia.
          by eapply option_at_after_value.
        + intros j Hj Hij. pose proof (option_at_next argv j i arg Hj Hat Harg Hij) as Hn.
          unfold next_option in Hn. rewrite Htakes in Hn. lia.
      - split_and!; [by eapply option_at_after_plain | lia |].
        intros j Hj Hij. lia. }
    intros Hloop Hret.
    destruct (IH _ _ _ Hat1 Hloop Hret) as [IHc IHv]. split; [tauto |].
    rewrite IHv, Hverb, orb_true_iff. split.
    + intros [[Hv|Harg']|(j & Hj & Hatj & Hargj)].
      * by left.
      * right. exists i. apply String.eqb_eq in Harg' as ->. done.
      * right. exists j. split_and!; [lia | done..].
    + intros [Hv|(j & Hj & Hatj & Hargj)]; [by left; left |].
      destruct (decide (j = i)) as [->|Hne].
      * left; right. rewrite Harg in Hargj. injection Hargj as ->. done.
      * right. exists j. split_and!; [apply Hnext; [done | lia] | done..].
  - intros [= <- <- <-] _. split; [done |]. split; [by left |].
    intros [Hv|(j & Hj & _ & Hargj)]; [done |].
    apply lookup_lt_Some in Hargj. lia.
Qed.

End parse_settings.

(** With both image paths present the option loop starts from the defaults,
    whatever the reference parameters held. *)
Lemma parse_input_options_start `{Library} (a : Args) (argv : list string) (w : World)
    (arg1 arg2 : string) :
  argv !! 1%nat = Some arg1 → arg1 ≠ "--help" → argv !! 2%nat = Some arg2 →
  parse_input_options a argv w =
    option_loop (length argv) argv 3
      {| options := default_options; img_path1 := arg1; img_path2 := arg2;
         inliers_path := "./inliers.json" |} w.
Proof.
  intros Harg1 Hhelp Harg2. unfold parse_input_options.
  pose proof (lookup_lt_Some _ _ _ Harg2).
  rewrite decide_False, decide_True by lia.
  rewrite (at_index_Some _ _ _ Harg1), bind_Returns.
  destruct (String.eqb_spec arg1 "--help"); [done |].
  by rewrite (at_index_Some _ _ _ Harg2), bind_Returns.
Qed.

(** A command line that is accepted has both image paths. *)
Lemma parse_input_options_accepted `{Library} (a : Args) (argv : list string)
    (w : World) (a' : Args) (w' : World) :
  parse_input_options a argv w = Returns (0, a', w') →
  ∃ arg1 arg2,
    argv !! 1%nat = Some arg1 ∧ arg1 ≠ "--help" ∧ argv !! 2%nat = Some arg2.
Proof.
  intros Hparse.
  destruct (parse_input_options_cases a argv w)
    as [(a1 & w1 & Hp & _)
       |[(Hp & _)
        |(arg1 & arg2 & a0 & ? & ? & ? & _)]];
    [by rewrite Hp in Hparse.. |].
  by exists arg1, arg2.
Qed.

(** X5. When the defaults are within range, the options of an accepted
    command line hold a descriptor type in 0..MLDB, one to three descriptor
    channels and a descriptor size that is not negative, whatever numbers the
    command line gave. *)
Theorem parse_input_options_checked `{Library} (a : Args) (argv : list string)
    (w : World) (a' : Args) (w' : World) :
  0 ≤ MLDB →
  checked_options default_options →
  parse_input_options a argv w = Returns (0, a', w') →
  checked_options (options a').
Proof.
  intros HMLDB Hdefault Hparse.
  destruct (parse_input_options_accepted _ _ _ _ _ Hparse)
    as (arg1 & arg2 & Harg1 & Hhelp & Harg2).
  rewrite (parse_input_options_start _ _ _ _ _ Harg1 Hhelp Harg2) in Hparse.
  destruct (option_loop_settings _ _ _ _ _ _ _ _ HMLDB (option_at_first argv) Hparse eq_refl)
    as [Hchecked _].
  by apply Hchecked.
Qed.

Lemma sample_defaults_checked : checked_options (H := sample_library) sample_options.
Proof. unfold checked_options. simpl. lia. Qed.

Lemma parse_input_options_checked_witness :
  ∃ a' w',
    parse_input_options (H := sample_library) (initial_args (H := sample_library))
      ["akaze_inliers"; "a.png"; "b.png"; "--descriptor"; "9"; "--descriptor_channels";
       "0"; "--descriptor_size"; "-4"] sample_world = Returns (0, a', w')
    ∧ checked_options (H := sample_library) (options a').
Proof.
  eexists _, _. split; [reflexivity |].
  apply (parse_input_options_checked (H := sample_library)
    (initial_args (H := sample_library))
    ["akaze_inliers"; "a.png"; "b.png"; "--descriptor"; "9"; "--descriptor_channels";
     "0"; "--descriptor_size"; "-4"] sample_world _ _ ltac:(simpl; lia)
    sample_defaults_checked eq_refl).
Defined.

(** X6. After an accepted command line the verbosity is on exactly when the
    default has it on or a "--verbose" stands at an option position; nothing
    on the command line turns it off. *)
Theorem parse_input_options_verbose `{Library} (a : Args) (argv : list string)
    (w : World) (a' : Args) (w' : World) :
  0 ≤ MLDB →
  parse_input_options a argv w = Returns (0, a', w') →
  (verbosity (options a') = true
   ↔ verbosity default_options = true
     ∨ ∃ j, option_at argv j ∧ argv !! j = Some "--verbose").
Proof.
  intros HMLDB Hparse.
  destruct (parse_input_options_accepted _ _ _ _ _ Hparse)
    as (arg1 & arg2 & Harg1 & Hhelp & Harg2).
  rewrite (parse_input_options_start _ _ _ _ _ Harg1 Hhelp Harg2) in Hparse.
  destruct (option_loop_settings _ _ _ _ _ _ _ _ HMLDB (option_at_first argv) Hparse eq_refl)
    as [_ Hverb].
  rewrite Hverb. simpl. split.
  - intros [?|(j & _ & ? & ?)]; [by left | right; by exists j].
  - intros [?|(j & Hat & ?)]; [by left | right; exists j].
    split_and!; [by eapply option_at_ge | done..].
Qed.

Lemma parse_input_options_verbose_witness :
  ∃ a' w',
    parse_input_options (H := sample_library) (initial_args (H := sample_library))
      ["akaze_inliers"; "a.png"; "b.png"; "--omax"; "--verbose"] sample_world
      = Returns (0, a', w')
    ∧ verbosity (options a') = false
    ∧ ¬ ∃ j, option_at ["akaze_inliers"; "a.png"; "b.png"; "--omax"; "--verbose"] j
             ∧ ["akaze_inliers"; "a.png"; "b.png"; "--omax"; "--verbose"] !! j
               = Some "--verbose".
Proof.
  eexists _, _. split; [reflexivity |]. split; [reflexivity |].
  intros Hex.
  pose proof (proj2 (parse_input_options_verbose (H := sample_library)
    (initial_args (H := sample_library))
    ["akaze_inliers"; "a.png"; "b.png"; "--omax"; "--verbose"] sample_world _ _
    ltac:(simpl; lia) eq_refl) (or_intror Hex)) as Hv.
  discriminate Hv.
Defined.

(** X11. With both image paths present the result does not depend on what
    the four reference parameters held at the call: all of them are assigned
    before the options are read. *)
Theorem parse_input_options_overwrites `{Library} (a a0 : Args) (argv : list string)
    (w : World) :
  (3 ≤ length argv)%nat →
  argv !! 1%nat ≠ Some "--help" →
  parse_input_options a argv w = parse_input_options a0 argv w.
Proof.
  intros Hargc Hhelp.
  destruct (lookup_lt_is_Some_2 argv 1%nat) as [arg1 Harg1]; [lia |].
  destruct (lookup_lt_is_Some_2 argv 2%nat) as [arg2 Harg2]; [lia |].
  assert (arg1 ≠ "--help") as Hne by congruence.
  by rewrite !(parse_input_options_start _ _ _ _ _ Harg1 Hne Harg2).
Qed.

Lemma parse_input_options_overwrites_witness :
  parse_input_options (H := sample_library)
    {| options := sample_options; img_path1 := "old1"; img_path2 := "old2";
       inliers_path := "old.json" |}
    ["akaze_inliers"; "a.png"; "b.png"; "--verbose"] sample_world
  = parse_input_options (H := sample_library) (initial_args (H := sample_library))
      ["akaze_inliers"; "a.png"; "b.png"; "--verbose"] sample_world.
Proof.
  apply (parse_input_options_overwrites (H := sample_library)); [simpl; lia | discriminate].
Defined.

(** ** More on save_inliers and main *)

(** X7. When [save_inliers] returns, no file other than [outFile] has
    changed and what can be opened is as before; it returns 0 exactly when
    the file opened, and then [outFile] exists and the console is untouched;
    it returns -1 exactly when the file did not open, and then no file has
    changed at all. *)
Theorem save_inliers_frame `{Library} (outFile : string) (ptpairs : list Point2f)
    (w : World) (ret : Z) (w' : World) :
  save_inliers outFile ptpairs w = Returns (ret, w') →
  (∀ path, path ≠ outFile → files w' !! path = files w !! path)
  ∧ can_open w' = can_open w
  ∧ ((ret = 0 ∧ can_open w outFile = true ∧ is_Some (files w' !! outFile)
      ∧ log w' = log w)
     ∨ (ret = -1 ∧ can_open w outFile = false ∧ files w' = files w)).
Proof.
  unfold save_inliers. destruct (can_open w outFile) eqn:Hopen.
  - destruct (save_inliers_loop _ _ _ _) as [text| |]; [|done..].
    rewrite bind_Returns. intros [= <- <-]. split_and!; [| done |].
    + intros path Hpath. simpl. by rewrite lookup_insert_ne.
    + left. split_and!; try done. simpl. rewrite lookup_insert_eq. by eexists.
  - intros [= <- <-]. split_and!; [done.. |]. by right.
Qed.

Lemma save_inliers_frame_witness :
  ∃ w',
    save_inliers (H := sample_library) "inliers.json" [at_pixel 1 2; at_pixel 3 4]
      (write_file "other.txt" "kept" sample_world) = Returns (0, w')
    ∧ files w' !! "other.txt" = Some "kept".
Proof.
  eexists. split; [reflexivity |].
  rewrite (proj1 (save_inliers_frame (H := sample_library) "inliers.json"
    [at_pixel 1 2; at_pixel 3 4] (write_file "other.txt" "kept" sample_world)
    _ _ eq_refl) "other.txt" ltac:(discriminate)).
  reflexivity.
Defined.

Section main_more.
Context `{Library}.

(** [main] once the command line is accepted and both images are loaded. *)
Lemma main_after_loading (argv : list string) (w : World) (a : Args) (w1 : World)
    (img1 img2 : Image) :
  parse_input_options initial_args argv w = Returns (0, a, w1) →
  imread w1 (img_path1 a) = Some img1 →
  imread w1 (img_path2 a) = Some img2 →
  main argv w =
    '(_, w') ← save_inliers (inliers_path a) (computed_inliers a img1 img2)
               {| files := files w1; can_open := can_open w1;
                  log := log w1 ++ matching_stage (select_matcher (options a)) |};
    Returns (0, w').
Proof.
  intros Hparse Himg1 Himg2. unfold main, computed_inliers.
  rewrite Hparse, bind_Returns, decide_False by lia. rewrite Himg1, Himg2.
  destruct (akaze_features _ img1) as [kpts1 desc1].
  destruct (akaze_features _ img2) as [kpts2 desc2].
  unfold emit, matching_stage. cbn [files can_open log].
  by rewrite <- !app_assoc.
Qed.

End main_more.

(** X8. [main] returns 0 or -1, and when it returns -1 it has run no
    matcher and written no file: the world differs from the one it started
    in by console text only. *)
Theorem main_failure_clean `{Library} (argv : list string) (w : World) (ret : Z)
    (w' : World) :
  main argv w = Returns (ret, w') →
  (ret = 0 ∨ ret = -1)
  ∧ (ret = -1 →
       files w' = files w
       ∧ ∃ l, log w' = log w ++ l ∧ Forall console_event l ∧ matcher_calls l = []).
Proof.
  intros [[-> (Hfiles & _ & l & Hl & Hall)]|[-> _]]%main_returns.
  - split; [by right |]. intros _. split; [done |]. exists l.
    split_and!; [done.. |]. by apply matcher_calls_console.
  - split; [by left | done].
Qed.

Lemma main_failure_clean_witness :
  ∃ w' l,
    main (H := sample_library) ["akaze_inliers"; "a.png"; "b.png"; "--output"]
      sample_world = Returns (-1, w')
    ∧ files w' = files sample_world
    ∧ log w' = log sample_world ++ l ∧ matcher_calls l = [].
Proof.
  eexists _.
  destruct (proj2 (main_failure_clean (H := sample_library)
    ["akaze_inliers"; "a.png"; "b.png"; "--output"] sample_world _ _ eq_refl) eq_refl)
    as (Hfiles & l & Hlog & _ & Hcalls).
  exists l. split_and!; [reflexivity | exact Hfiles | exact Hlog | exact Hcalls].
Defined.

(** X9. When the command line is accepted, both images load, the output
    opens and the estimator hands back whole pairs, [main] returns 0, has made
    the three library calls of the matching stage once each and in order, and
    the file at the inlier path reads back as the rounded pairs; no other
    file has changed. *)
Theorem main_saves_inliers `{Library} (argv : list string) (w : World) (a : Args)
    (w1 : World) (img1 img2 : Image) (ps : list (Point2f * Point2f)) :
  parse_input_options initial_args argv w = Returns (0, a, w1) →
  imread w1 (img_path1 a) = Some img1 →
  imread w1 (img_path2 a) = Some img2 →
  can_open w (inliers_path a) = true →
  computed_inliers a img1 img2 = flatten_pairs ps →
  ∃ w',
    main argv w = Returns (0, w')
    ∧ files w' = <[inliers_path a := inliers_text (pixel_pair_of <$> ps)]> (files w)
    ∧ (files w' !! inliers_path a ≫= load_inliers) = Some (pixel_pair_of <$> ps)
    ∧ log w' = log w1 ++ matching_stage (select_matcher (options a)).
Proof.
  intros Hparse Himg1 Himg2 Hopen Hps.
  pose proof (parse_input_options_console _ _ _ _ _ _ Hparse) as (Hfiles & Hcan & _).
  rewrite (main_after_loading _ _ _ _ _ _ Hparse Himg1 Himg2), Hps.
  rewrite save_inliers_pairs by (simpl; by rewrite Hcan).
  rewrite bind_Returns. eexists. split; [done |]. simpl. rewrite Hfiles.
  split_and!; [done | | done].
  rewrite lookup_insert_eq. simpl. apply load_inliers_text.
Qed.

Lemma main_saves_inliers_witness :
  ∃ w',
    main (H := library_returning [at_pixel 12 34; at_pixel 15 30])
      ["akaze_inliers"; "a.png"; "b.png"; "--output"; "out.json"] sample_world
      = Returns (0, w')
    ∧ (files w' !! "out.json" ≫= load_inliers) = Some [((12, 34), (15, 30))].
Proof.
  destruct (main_saves_inliers (H := library_returning [at_pixel 12 34; at_pixel 15 30])
    ["akaze_inliers"; "a.png"; "b.png"; "--output"; "out.json"] sample_world
    _ _ () () [(at_pixel 12 34, at_pixel 15 30)] eq_refl eq_refl eq_refl eq_refl eq_refl)
    as (w' & Hmain & _ & Hload & _).
  exists w'. split; [exact Hmain | exact Hload].
Defined.

(** X10. When the estimator hands back a vector of odd length and the
    output opens, [main] has no result: [save_inliers] reads the element past
    the end of the vector. *)
Theorem main_odd_inliers `{Library} (argv : list string) (w : World) (a : Args)
    (w1 : World) (img1 img2 : Image) :
  parse_input_options initial_args argv w = Returns (0, a, w1) →
  imread w1 (img_path1 a) = Some img1 →
  imread w1 (img_path2 a) = Some img2 →
  can_open w (inliers_path a) = true →
  Nat.Odd (length (computed_inliers a img1 img2)) →
  main argv w = Undefined (length (computed_inliers a img1 img2)).
Proof.
  intros Hparse Himg1 Himg2 Hopen Hodd.
  pose proof (parse_input_options_console _ _ _ _ _ _ Hparse) as (_ & Hcan & _).
  rewrite (main_after_loading _ _ _ _ _ _ Hparse Himg1 Himg2).
  destruct (proj2 (vector_as_pairs _) Hodd) as (ps & p & ->).
  rewrite save_inliers_left_over by (simpl; by rewrite Hcan).
  done.
Qed.

Lemma main_odd_inliers_witness :
  main (H := library_returning [at_pixel 12 34; at_pixel 15 30; at_pixel 7 7])
    ["akaze_inliers"; "a.png"; "b.png"] sample_world = Undefined 3.
Proof.
  apply (main_odd_inliers (H := library_returning [at_pixel 12 34; at_pixel 15 30; at_pixel 7 7])
    ["akaze_inliers"; "a.png"; "b.png"] sample_world _ _ () ()
    eq_refl eq_refl eq_refl eq_refl).
  exists 1%nat. reflexivity.
Defined.

(** ** Rounding *)

Lemma Qtrunc_integer_half (n : Z) :
  Qtrunc (inject_Z n + (1 # 2)) = if decide (0 ≤ n) then n else n + 1.
Proof.
  unfold Qtrunc, inject_Z, Qplus. simpl Qnum. simpl Qden.
  change (Z.pos (1 * 2)) with 2.
  destruct (decide (0 ≤ n)); Z.to_euclidean_division_equations; lia.
Qed.

(** X12. The coordinate [save_inliers] prints for a point that already lies on an
    integer [n]: [n] itself when [n] is not negative, [n + 1] when it is. *)
Theorem round_coord_integer `{Library} (n : Z) :
  conforming_cast →
  INT_MIN ≤ n ≤ INT_MAX →
  round_coord (inject_Z n) = if decide (0 ≤ n) then n else n + 1.
Proof.
  intros Hcast Hn. unfold round_coord. rewrite Hcast.
  - apply Qtrunc_integer_half.
  - unfold representable. rewrite Qtrunc_integer_half.
    unfold INT_MIN, INT_MAX in *. destruct (decide (0 ≤ n)); lia.
Qed.

Lemma round_coord_integer_witness :
  round_coord (H := sample_library) (inject_Z (-1)) = 0
  ∧ round_coord (H := sample_library) (inject_Z 7) = 7.
Proof.
  split.
  - apply (round_coord_integer (H := sample_library) (-1) saturating_cast_conforming).
    unfold INT_MIN, INT_MAX. lia.
  - apply (round_coord_integer (H := sample_library) 7 saturating_cast_conforming).
    unfold INT_MIN, INT_MAX. lia.
Defined.

(** ** The estimator's result in the driver *)



